(** * logWise: chat state of the UI and the documented query pipeline

    A shallow embedding of the TypeScript sources of the logWise UI
    (types/container.ts, data/mockData.ts, pages/Index.tsx,
    components/ContainerSidebar.tsx), of the request built by the frontend
    integration guide, and of the backend pipeline (chunker, vector index,
    retriever) as the design document describes it. *)

From stdpp Require Import base option list strings pretty gmap sorting.

(** ** types/container.ts *)

Module Container.
(** [interface Container].  The declared type of [status] is the union
    ['running' | 'stopped' | 'paused'], but the values come from parsed JSON
    (the sidebar also tests for ['exited']), so a status is kept as the
    string it is at run time.  [ports?] is an optional field. *)
Record t := mk {
  id : string;
  name : string;
  image : string;
  status : string;
  created : string;
  ports : option (list string)
}.
End Container.

Module ChatMessage.
(** [type: 'user' | 'bot'] *)
Inductive sender := user | bot.

(** [interface ChatMessage]; a [Date] is its number of milliseconds since the
    epoch. *)
Record t := mk {
  id : string;
  type : sender;
  content : string;
  timestamp : Z
}.
End ChatMessage.

Module ContainerLogs.
(** [interface ContainerLogs] *)
Record t := mk {
  containerId : string;
  messages : list ChatMessage.t
}.
End ContainerLogs.

#[global] Instance sender_eq_dec : EqDecision ChatMessage.sender.
Proof. solve_decision. Defined.
#[global] Instance ChatMessage_eq_dec : EqDecision ChatMessage.t.
Proof. solve_decision. Defined.
#[global] Instance ContainerLogs_eq_dec : EqDecision ContainerLogs.t.
Proof. solve_decision. Defined.
#[global] Instance Container_eq_dec : EqDecision Container.t.
Proof. solve_decision. Defined.

(** ** data/mockData.ts *)

Module MockData.

Definition mockContainers : list Container.t :=
  [ Container.mk "container-1" "web-app" "nginx:latest" "running"
      "2024-01-15T10:30:00Z" (Some ["80:8080"; "443:8443"]);
    Container.mk "container-2" "api-server" "node:18-alpine" "running"
      "2024-01-15T11:00:00Z" (Some ["3000:3000"]);
    Container.mk "container-3" "database" "postgres:15" "running"
      "2024-01-15T09:45:00Z" (Some ["5432:5432"]);
    Container.mk "container-4" "redis-cache" "redis:7-alpine" "paused"
      "2024-01-15T12:15:00Z" (Some ["6379:6379"]);
    Container.mk "container-5" "worker-queue" "python:3.11-slim" "stopped"
      "2024-01-15T08:30:00Z" None ].

Definition mockChatLogs : list ContainerLogs.t := [].

End MockData.

(** ** pages/Index.tsx *)

Module Index.

(** The two pieces of React state of the [Index] component. *)
Record state := mkState {
  selectedContainer : option Container.t;
  chatLogs : list ContainerLogs.t
}.

(** [useState(null)] and [useState(mockChatLogs)]. *)
Definition initial : state := mkState None MockData.mockChatLogs.

(** What the clock answers during one call of [handleSendMessage], in
    evaluation order: [Date.now()] in the user message's id, [new Date()] for
    its timestamp, [Date.now()] in the bot message's id and [Date.now()] in
    the bot message's timestamp. *)
Record clock := mkClock {
  now_user_id : Z;
  now_user_timestamp : Z;
  now_bot_id : Z;
  now_bot_timestamp : Z
}.

Definition quote : string := String (Ascii.ascii_of_nat 34) EmptyString.
Definition newline : string := String (Ascii.ascii_of_nat 10) EmptyString.

Definition userMessage (clk : clock) (messageContent : string) : ChatMessage.t :=
  {| ChatMessage.id := "msg-" +:+ pretty (now_user_id clk) +:+ "-user";
     ChatMessage.type := ChatMessage.user;
     ChatMessage.content := messageContent;
     ChatMessage.timestamp := now_user_timestamp clk |}.

Definition botMessage (clk : clock) (messageContent : string) : ChatMessage.t :=
  {| ChatMessage.id := "msg-" +:+ pretty (now_bot_id clk) +:+ "-bot";
     ChatMessage.type := ChatMessage.bot;
     ChatMessage.content :=
       "Received: " +:+ quote +:+ messageContent +:+ quote +:+ newline +:+ newline
       +:+ "This is a mock response. In a real application, this would be processed by your backend and return actual container logs or execute commands.";
     ChatMessage.timestamp := (now_bot_timestamp clk + 1000)%Z |}.

(** [handleContainerSelect] *)
Definition handleContainerSelect (container : Container.t) (st : state) : state :=
  mkState (Some container) (chatLogs st).

(** The updater handed to [setChatLogs]: [findIndex] is the index of the
    first entry of the selected container; the entry found is replaced by a
    copy with the two messages appended, and without one a new entry is
    appended to the list. *)
Definition updateLogs (selected : Container.t) (userMsg botMsg : ChatMessage.t)
    (prev : list ContainerLogs.t) : list ContainerLogs.t :=
  match list_find (λ log, ContainerLogs.containerId log = Container.id selected) prev with
  | Some (existingLogIndex, existing) =>
      <[existingLogIndex :=
          {| ContainerLogs.containerId := ContainerLogs.containerId existing;
             ContainerLogs.messages :=
               ContainerLogs.messages existing ++ [userMsg; botMsg] |}]> prev
  | None =>
      prev ++ [ {| ContainerLogs.containerId := Container.id selected;
                   ContainerLogs.messages := [userMsg; botMsg] |} ]
  end.

(** [handleSendMessage]: returns at once when nothing is selected. *)
Definition handleSendMessage (clk : clock) (messageContent : string) (st : state) : state :=
  match selectedContainer st with
  | None => st
  | Some selected =>
      mkState (selectedContainer st)
        (updateLogs selected (userMessage clk messageContent)
           (botMessage clk messageContent) (chatLogs st))
  end.

(** [currentMessages]: [find(...)?.messages || []]. *)
Definition currentMessages (st : state) : list ChatMessage.t :=
  match selectedContainer st with
  | Some selected =>
      match list_find (λ log, ContainerLogs.containerId log = Container.id selected)
              (chatLogs st) with
      | Some (_, log) => ContainerLogs.messages log
      | None => []
      end
  | None => []
  end.

(** The states of the component: the initial one, and what the two handlers
    make of a state. *)
Inductive reachable : state → Prop :=
  | reachable_initial : reachable initial
  | reachable_select container st :
      reachable st → reachable (handleContainerSelect container st)
  | reachable_send clk messageContent st :
      reachable st → reachable (handleSendMessage clk messageContent st).

End Index.

(** ** components/ContainerSidebar.tsx *)

Module ContainerSidebar.

Definition runningContainers (containers : list Container.t) : list Container.t :=
  filter (λ container, Container.status container = "running") containers.

Definition stoppedContainers (containers : list Container.t) : list Container.t :=
  filter (λ container, Container.status container ≠ "running") containers.

(** The [onmessage] handler of the event source: the container received is
    appended to the list. *)
Definition onmessage (newContainer : Container.t) (prevContainers : list Container.t)
    : list Container.t :=
  prevContainers ++ [newContainer].

End ContainerSidebar.

(** ** components/ContainerSidebar.tsx: what the sidebar renders *)

Module SidebarView.

(** The icons of [lucide-react] the sidebar uses for a status. *)
Inductive lucide := Play | Square | Pause.

(** An icon element: the component and its [className]. *)
Record icon := mkIcon {
  component : lucide;
  iconClass : string
}.

(** [getStatusIcon] and [getStatusColor].  The second case of the [switch]
    is ['stopped'] in the component that takes its containers as props and
    ['exited'] in the one that receives them from the event source;
    [squareCase] is that label. *)
Definition statusIcon (squareCase : string) (status : string) : icon :=
  if decide (status = "running") then mkIcon Play "h-3 w-3 text-status-running"
  else if decide (status = squareCase) then mkIcon Square "h-3 w-3 text-status-stopped"
  else if decide (status = "paused") then mkIcon Pause "h-3 w-3 text-status-paused"
  else mkIcon Square "h-3 w-3".

Definition statusColor (squareCase : string) (status : string) : string :=
  if decide (status = "running") then "bg-status-running text-white"
  else if decide (status = squareCase) then "bg-status-stopped text-white"
  else if decide (status = "paused") then "bg-status-paused text-white"
  else "bg-muted text-muted-foreground".

Definition getStatusIcon : string → icon := statusIcon "stopped".
Definition getStatusColor : string → string := statusColor "stopped".

(** What a button of a container list shows: the icon alone when the sidebar
    is collapsed, otherwise the icon, the name, the image and the badge with
    its class and the status as its text. *)
Inductive content :=
  | IconOnly (i : icon)
  | Row (i : icon) (name image : string) (badgeClass badgeText : string).

Definition iconOf (c : content) : icon :=
  match c with
  | IconOnly i => i
  | Row i _ _ _ _ => i
  end.

(** The class and the text of the badge, when the button shows one. *)
Definition badgeOf (c : content) : option (string * string) :=
  match c with
  | IconOnly _ => None
  | Row _ _ _ badgeClass badgeText => Some (badgeClass, badgeText)
  end.

(** A button of a container list: its [key], its [className], the container
    its [onClick] hands to [onContainerSelect], and what it shows. *)
Record button := mkButton {
  key : string;
  className : string;
  onClick : Container.t;
  shows : content
}.

(** The [className] template of a button. *)
Definition buttonClass (isCollapsed selected : bool) : string :=
  "w-full " +:+ (if isCollapsed then "p-2 justify-center" else "p-3")
  +:+ " text-left hover:bg-accent rounded-lg transition-colors "
  +:+ (if selected then "bg-accent text-accent-foreground" else "").

(** [selectedContainer?.id === container.id] *)
Definition isSelected (selectedContainer : option Container.t)
    (container : Container.t) : bool :=
  match selectedContainer with
  | Some selected => bool_decide (Container.id selected = Container.id container)
  | None => false
  end.

Definition renderButton (squareCase : string) (isCollapsed : bool)
    (selectedContainer : option Container.t) (container : Container.t) : button :=
  {| key := Container.id container;
     className := buttonClass isCollapsed (isSelected selectedContainer container);
     onClick := container;
     shows :=
       if isCollapsed
       then IconOnly (statusIcon squareCase (Container.status container))
       else Row (statusIcon squareCase (Container.status container))
              (Container.name container) (Container.image container)
              ("text-xs " +:+ statusColor squareCase (Container.status container))
              (Container.status container) |}.

(** A rendered container list: the heading, which shows the group name
    unless the sidebar is collapsed, and the buttons. *)
Record group := mkGroup {
  heading : option string;
  buttons : list button
}.

(** [renderContainerList] *)
Definition renderContainerList (squareCase : string) (isCollapsed : bool)
    (selectedContainer : option Container.t)
    (containerList : list Container.t) (groupName : string) : group :=
  {| heading := if isCollapsed then None else Some groupName;
     buttons := renderButton squareCase isCollapsed selectedContainer <$> containerList |}.

(** The two lists of the sidebar, in the order they are rendered. *)
Definition containerLists (squareCase : string) (isCollapsed : bool)
    (selectedContainer : option Container.t) (containers : list Container.t)
    : list group :=
  [ renderContainerList squareCase isCollapsed selectedContainer
      (ContainerSidebar.runningContainers containers) "Running Containers";
    renderContainerList squareCase isCollapsed selectedContainer
      (ContainerSidebar.stoppedContainers containers) "Stopped Containers" ].

(** All buttons of the sidebar, in the order they are rendered. *)
Definition allButtons (squareCase : string) (isCollapsed : bool)
    (selectedContainer : option Container.t) (containers : list Container.t)
    : list button :=
  concat (buttons <$> containerLists squareCase isCollapsed selectedContainer containers).

(** The button carries the classes of the selected container. *)
Definition highlighted (isCollapsed : bool) (b : button) : Prop :=
  className b = buttonClass isCollapsed true.

#[global] Instance highlighted_dec isCollapsed b : Decision (highlighted isCollapsed b).
Proof. unfold highlighted. apply _. Defined.

(** The containers of the sidebar fed by the event source, after the
    messages [received] have arrived in that order. *)
Definition received_containers (received : list Container.t) : list Container.t :=
  foldl (λ prevContainers newContainer, ContainerSidebar.onmessage newContainer prevContainers)
    [] received.

End SidebarView.

(** ** components/ChatArea.tsx *)

Module ChatArea.

(** [ChatBubble]: the key the list gives it, whether it is the user's (on the
    right) or the bot's (on the left), its text and its time. *)
Record bubble := mkBubble {
  bubbleKey : string;
  isUser : bool;
  bubbleText : string;
  bubbleTime : Z
}.

Definition ChatBubble (message : ChatMessage.t) : bubble :=
  {| bubbleKey := ChatMessage.id message;
     isUser := bool_decide (ChatMessage.type message = ChatMessage.user);
     bubbleText := ChatMessage.content message;
     bubbleTime := ChatMessage.timestamp message |}.

(** The message area: the greeting naming the container and its id when
    there is no message, otherwise one bubble per message. *)
Inductive messageArea :=
  | Greeting (name id : string)
  | Bubbles (bs : list bubble).

(** What [ChatArea] returns: the empty state without a container, the
    stopped state for a container that is not running, otherwise the chat
    with its header, message area, input and send button. *)
Inductive view :=
  | EmptyState
  | StoppedContainerState (name : string)
  | Chat (headerName headerImage : string) (area : messageArea)
         (placeholder value : string) (sendDisabled : bool).

Section trim.
(** [String.prototype.trim] *)
Variable trim : string → string.

(** [ChatArea]'s render. *)
Definition render (container : option Container.t) (messages : list ChatMessage.t)
    (inputValue : string) : view :=
  match container with
  | None => EmptyState
  | Some c =>
      if decide (Container.status c ≠ "running")
      then StoppedContainerState (Container.name c)
      else Chat (Container.name c) (Container.image c)
             (match messages with
              | [] => Greeting (Container.name c) (Container.id c)
              | _ => Bubbles (ChatBubble <$> messages)
              end)
             ("Send a message to " +:+ Container.name c +:+ "...")
             inputValue
             (bool_decide (trim inputValue = ""))
  end.

(** [handleSend]: the message handed to [onSendMessage], if it is called, and
    the input value afterwards. *)
Definition handleSend (container : option Container.t) (inputValue : string)
    : option string * string :=
  if decide (trim inputValue = "") then (None, inputValue)
  else match container with
       | Some _ => (Some (trim inputValue), "")
       | None => (None, inputValue)
       end.

(** [handleKeyPress]: whether the default is prevented, and what [handleSend]
    does when it is called. *)
Definition handleKeyPress (key : string) (shiftKey : bool)
    (container : option Container.t) (inputValue : string)
    : bool * (option string * string) :=
  if decide (key = "Enter") then
    if shiftKey then (false, (None, inputValue))
    else (true, handleSend container inputValue)
  else (false, (None, inputValue)).

End trim.

End ChatArea.

(** ** pages/Index.tsx with its sidebar and chat area *)

Module Page.

(** The state of the page: the state of [Index], the input value of the chat
    area and the collapse flag of the sidebar. *)
Record state := mkState {
  index : Index.state;
  inputValue : string;
  isCollapsed : bool
}.

Definition initial : state := mkState Index.initial "" false.

Section page.
Variable trim : string → string.
(** The containers [Index] hands to the sidebar. *)
Variable containers : list Container.t.

(** What the chat area shows in a state. *)
Definition chatView (st : state) : ChatArea.view :=
  ChatArea.render trim (Index.selectedContainer (index st))
    (Index.currentMessages (index st)) (inputValue st).

Definition showsChat (st : state) : Prop :=
  match chatView st with
  | ChatArea.Chat _ _ _ _ _ _ => True
  | _ => False
  end.

(** The effect of [handleSend] on the page: [onSendMessage] is
    [handleSendMessage], then the input value is set. *)
Definition send (clk : Index.clock) (st : state) : state :=
  let '(sent, value) :=
    ChatArea.handleSend trim (Index.selectedContainer (index st)) (inputValue st) in
  mkState
    (match sent with
     | Some messageContent => Index.handleSendMessage clk messageContent (index st)
     | None => index st
     end)
    value (isCollapsed st).

(** The effect of a key press in the input. *)
Definition keyPress (clk : Index.clock) (key : string) (shiftKey : bool)
    (st : state) : state :=
  if decide (key = "Enter") then (if shiftKey then st else send clk st) else st.

(** What the user can do: click a button of the sidebar, which are the
    buttons of the containers handed to it; toggle the sidebar; and, while
    the chat is shown, type into the input, press a key in it or click the
    send button, which is disabled while the trimmed input is empty. *)
Inductive step : state → state → Prop :=
  | step_select container st :
      container ∈ containers →
      step st (mkState (Index.handleContainerSelect container (index st))
                 (inputValue st) (isCollapsed st))
  | step_toggle st :
      step st (mkState (index st) (inputValue st) (negb (isCollapsed st)))
  | step_change value st :
      showsChat st →
      step st (mkState (index st) value (isCollapsed st))
  | step_keyPress clk key shiftKey st :
      showsChat st →
      step st (keyPress clk key shiftKey st)
  | step_click clk st :
      showsChat st →
      trim (inputValue st) ≠ "" →
      step st (send clk st).

Inductive reachable : state → Prop :=
  | reachable_initial : reachable initial
  | reachable_step st st' : reachable st → step st st' → reachable st'.

(** What the page keeps: the selection is a container of the sidebar, every
    log entry belongs to a running container of the sidebar, and every user
    message is a trimmed input that is not empty. *)
Definition page_inv (st : state) : Prop :=
  (∀ c, Index.selectedContainer (index st) = Some c → c ∈ containers)
  ∧ Forall (λ log,
      (∃ c, c ∈ containers
            ∧ Container.id c = ContainerLogs.containerId log
            ∧ Container.status c = "running")
      ∧ Forall (λ m, ChatMessage.type m = ChatMessage.user →
                     ∃ value, ChatMessage.content m = trim value ∧ trim value ≠ "")
          (ContainerLogs.messages log))
      (Index.chatLogs (index st)).

End page.

End Page.

(** ** The simple chat page ([App]) *)

Module SimpleChat.

Inductive sender := user | bot.

(** A JavaScript value as [sendMessage] meets one: [undefined], or what
    [res.json()] parsed, a JSON value, an object being the list of its
    members in the order of the text.  [number] is the type of JavaScript
    numbers. *)
#[warnings="-register-all"] Inductive value (number : Type) :=
  | JUndefined
  | JNull
  | JBool (b : bool)
  | JNumber (n : number)
  | JString (s : string)
  | JArray (items : list (value number))
  | JObject (members : list (string * value number)).

Arguments JUndefined {number}.
Arguments JNull {number}.
Arguments JBool {number} b.
Arguments JNumber {number} n.
Arguments JString {number} s.
Arguments JArray {number} items.
Arguments JObject {number} members.

(** A message of the page.  Its [text] is declared a string; the text of the
    bot's message is whatever value the body of the answer gave. *)
Record message (number : Type) := mkMessage {
  from : sender;
  text : value number
}.

Arguments mkMessage {number} from text.
Arguments from {number} m.
Arguments text {number} m.

Record state (number : Type) := mkState {
  messages : list (message number);
  input : string;
  loading : bool
}.

Arguments mkState {number} messages input loading.
Arguments messages {number} s.
Arguments input {number} s.
Arguments loading {number} s.

(** How the two [await]s of the [try] block end: [res.json()] resolves with
    the parsed body, or [fetch] or [res.json()] rejects (no connection, a
    body that is not JSON). *)
Inductive outcome (number : Type) :=
  | Resolved (data : value number)
  | Rejected.

Arguments Resolved {number} data.
Arguments Rejected {number}.

(** What a call of [sendMessage] leaves: the next state of the component, or
    a state updater that throws when React runs it, which no [catch] of
    [sendMessage] sees.  How React renders the text of a message is not part
    of this model. *)
Inductive result (number : Type) :=
  | Done (st : state number)
  | UpdaterThrows.

Arguments Done {number} st.
Arguments UpdaterThrows {number}.

Section app.
Context {number : Type}.

(** The number is [0] or [-0]. *)
Variable is_zero : number → bool.

(** [String.prototype.trim] *)
Variable trim : string → string.

(** The value is truthy: what [||] tests. *)
Definition truthy (v : value number) : bool :=
  match v with
  | JUndefined | JNull => false
  | JBool b => b
  | JNumber n => negb (is_zero n)
  | JString s => bool_decide (s ≠ "")
  | JArray _ | JObject _ => true
  end.

(** The member of a parsed object under a key: of members with the same key
    the last one counts; without one the value is [undefined]. *)
Definition own_property (key : string) (members : list (string * value number))
    : value number :=
  foldl (λ found member, if decide (member.1 = key) then member.2 else found)
    JUndefined members.

(** [data.response] and [data.error]: reading a property of [null] or
    [undefined] throws ([None]); an object gives its member; a boolean, a
    number, a string and an array have neither property. *)
Definition property (key : string) (data : value number) : option (value number) :=
  match data with
  | JUndefined | JNull => None
  | JObject members => Some (own_property key members)
  | JBool _ | JNumber _ | JString _ | JArray _ => Some JUndefined
  end.

(** [a || b] *)
Definition or_else (a b : value number) : value number :=
  if truthy a then a else b.

(** [data.response || data.error || 'No response']; [data.error] is read
    only when [data.response] is not truthy. *)
Definition reply (data : value number) : option (value number) :=
  match property "response" data with
  | None => None
  | Some response =>
      if truthy response then Some response
      else match property "error" data with
           | None => None
           | Some error => Some (or_else error (JString "No response"))
           end
  end.

(** [sendMessage] up to its [await]: nothing happens for a blank input;
    otherwise the user's message is appended as typed and [loading] is set. *)
Definition sendMessage_begin (st : state number) : option (state number) :=
  if decide (trim (input st) = "") then None
  else Some (mkState (messages st ++ [mkMessage user (JString (input st))])
               (input st) true).

(** [sendMessage] after its [await]s.  When they resolved, the updater given
    to [setMessages] reads the body when React runs it, outside the [try]
    block; when one rejected, the [catch] block appends its fixed text.  Then
    the input is cleared and [loading] reset. *)
Definition sendMessage_end (o : outcome number) (st : state number) : result number :=
  match o with
  | Resolved data =>
      match reply data with
      | Some answer => Done (mkState (messages st ++ [mkMessage bot answer]) "" false)
      | None => UpdaterThrows
      end
  | Rejected =>
      Done (mkState
              (messages st ++ [mkMessage bot (JString "Error contacting backend")])
              "" false)
  end.

(** [sendMessage] *)
Definition sendMessage (o : outcome number) (st : state number) : result number :=
  match sendMessage_begin st with
  | None => Done st
  | Some pending => sendMessage_end o pending
  end.

End app.

End SimpleChat.

(** ** Exchanges *)

Module Conversation.

(** What one call of [handleSendMessage] records: the user's message and the
    bot's reply to it. *)
Definition exchange (sent : Index.clock * string) : list ChatMessage.t :=
  [Index.userMessage sent.1 sent.2; Index.botMessage sent.1 sent.2].

(** The messages are those of the calls [sends], in their order. *)
Definition records (sends : list (Index.clock * string))
    (messages : list ChatMessage.t) : Prop :=
  messages = concat (exchange <$> sends).

(** The last character of a string. *)
Fixpoint last_char (s : string) : option Ascii.ascii :=
  match s with
  | EmptyString => None
  | String a EmptyString => Some a
  | String _ s' => last_char s'
  end.

(** Every entry of the log records a nonempty sequence of exchanges. *)
Definition well_formed (logs : list ContainerLogs.t) : Prop :=
  Forall (λ log, ∃ sends, sends ≠ [] ∧ records sends (ContainerLogs.messages log)) logs.

End Conversation.

(** ** Scenarios of the UI *)

Module UIScenario.

(** White space of the ASCII range: tab, line feed, vertical tab, form feed,
    carriage return and space. *)
Definition is_space (a : Ascii.ascii) : bool :=
  bool_decide (Ascii.nat_of_ascii a ∈ [9; 10; 11; 12; 13; 32]).

Fixpoint trim_start (s : string) : string :=
  match s with
  | String a s' => if is_space a then trim_start s' else s
  | EmptyString => EmptyString
  end.

(** [trim] on text whose white space is of the ASCII range. *)
Definition trim_ascii (s : string) : string :=
  String.rev (trim_start (String.rev (trim_start s))).

Definition web : Container.t :=
  Container.mk "container-1" "web-app" "nginx:latest" "running"
    "2024-01-15T10:30:00Z" (Some ["80:8080"; "443:8443"]).

Definition worker : Container.t :=
  Container.mk "container-5" "worker-queue" "python:3.11-slim" "stopped"
    "2024-01-15T08:30:00Z" None.

End UIScenario.

(** ** The query request of the frontend integration guide *)

Module QueryRequest.
(** The JSON body of [POST /api/logs/query] as [queryLogs] builds it and the
    READMEs show it: [container_id], [question] and an integer [k], which a
    request may leave out (§6). *)
Record t := mk {
  container_id : string;
  question : string;
  k : option Z
}.
End QueryRequest.

Module Integration.

(** [queryLogs]: the body handed to [JSON.stringify]. *)
Definition queryLogs (containerId question : string) : QueryRequest.t :=
  {| QueryRequest.container_id := containerId;
     QueryRequest.question := question;
     QueryRequest.k := Some 8%Z |}.

End Integration.

(** ** Text of log lines and chunks *)

Module Text.

(** The string without its first [n] characters. *)
Fixpoint drop_chars (n : nat) (s : string) : string :=
  match n, s with
  | 0, _ => s
  | S n', String _ s' => drop_chars n' s'
  | S _, EmptyString => EmptyString
  end.

(** The last [n] characters of the string, all of it when it is shorter. *)
Definition tail_chars (n : nat) (s : string) : string :=
  drop_chars (String.length s - n) s.

Definition repeat_char (a : Ascii.ascii) (n : nat) : string :=
  Nat.iter n (String a) EmptyString.

End Text.

(** ** Log Chunker

    The chunker of [app/ingestion/streamer.py] and the watcher of
    [app/ingestion/watcher.py] are not among the sources: this module follows
    §3, §4.1, §4.2 and §5 of the design. *)

Module Chunker.

(** Modelled from the spec: the detected level of a line of the missing
    chunker (§3). *)
Inductive level := ERROR | WARN | INFO | DEBUG | UNKNOWN.

(** Modelled from the spec: the severity order of the missing chunker (§4.2),
    [ERROR > WARN > INFO > DEBUG > UNKNOWN]. *)
Definition level_rank (l : level) : nat :=
  match l with ERROR => 4 | WARN => 3 | INFO => 2 | DEBUG => 1 | UNKNOWN => 0 end.

(** Modelled from the spec: [LogLine] of the missing chunker (§3): container
    identifier, sequence number, timestamp in seconds, raw text, detected
    level. *)
Record LogLine := mkLine {
  line_container : string;
  line_seq : nat;
  line_timestamp : Z;
  line_text : string;
  line_level : level
}.

(** Modelled from the spec: [Chunk] of the missing chunker (§3): container
    identifier, chunk sequence number, concatenated text, first and last line
    sequence number, time range, severity score, source line count. *)
Record Chunk := mkChunk {
  container_id : string;
  chunk_seq : nat;
  text : string;
  first_seq : nat;
  last_seq : nat;
  time_start : Z;
  time_end : Z;
  severity : nat;
  line_count : nat
}.

(** The recognized options of the chunker (§4.2); the defaults are
    [chunk_config] of the backend's README. *)
Record config := mkConfig {
  max_chunk_size : nat;
  min_chunk_size : nat;
  max_lines : nat;
  timeout_seconds : Z;
  overlap_chars : nat
}.

Definition default_config : config :=
  {| max_chunk_size := 1500; min_chunk_size := 200; max_lines := 25;
     timeout_seconds := 30; overlap_chars := 200 |}.

(** Modelled from the spec: the four causes of an emission by the missing
    chunker (§4.2). *)
Inductive trigger := MaxSize | MaxLines | Timeout | ForcedFlush.

(** Modelled from the spec: what the ingestion task of a container hands to
    the missing chunker (§4.1, §4.2): a line of the stream, the time (for the
    timeout), or the stop of the container. *)
Inductive event :=
  | Line (l : LogLine)
  | Tick (now : Z)
  | Stop.

(** Modelled from the spec: the state of the missing chunker for one
    container (§4.2): the in-flight buffer, the text of the chunk emitted last
    (for the overlap), and the next chunk sequence number. *)
Record state := mkState {
  buffer : list LogLine;
  previous : option string;
  next_seq : nat
}.

Definition init : state := mkState [] None 0.

(** An emitted chunk with the cause of its emission and the lines folded
    into it. *)
Record emission := mkEmission {
  cause : trigger;
  emitted : Chunk;
  lines : list LogLine
}.

(** Modelled from the spec: the concatenated text of lines in arrival order
    (§3, §4.2). *)
Definition concat_text (ls : list LogLine) : string :=
  foldr (λ l acc, line_text l +:+ acc) EmptyString ls.

Definition buffer_size (ls : list LogLine) : nat := String.length (concat_text ls).

(** Modelled from the spec: the severity score of the missing chunker (§4.2),
    the maximum severity of a contained line. *)
Definition max_severity (ls : list LogLine) : nat :=
  foldr (λ l acc, level_rank (line_level l) `max` acc) 0 ls.

(** Modelled from the spec: the chunker of [app/ingestion/streamer.py], which
    is not among the sources (§4.2).  The text carried over from the chunk
    before: up to [overlap_chars] of its trailing text, none for the first
    chunk of a container. *)
Definition overlap_prefix (cfg : config) (prev : option string) : string :=
  match prev with
  | None => EmptyString
  | Some t => Text.tail_chars (overlap_chars cfg) t
  end.

(** Modelled from the spec: the triggers of a natural emission of the missing
    chunker (§4.2, §9): a chunk is emitted when the buffer reaches
    [max_chunk_size] characters, or [max_lines] lines, or when its first line
    is older than [timeout_seconds]; a chunk for which several hold is put
    down to the first of them.  §4.2 calls [min_chunk_size] the character
    floor of a natural emission, but none of its triggers tests it. *)
Definition natural_trigger (cfg : config) (buf : list LogLine) (now : Z)
    : option trigger :=
  match buf with
  | [] => None
  | first :: _ =>
      if decide (max_chunk_size cfg ≤ buffer_size buf) then Some MaxSize
      else if decide (max_lines cfg ≤ length buf) then Some MaxLines
      else if decide (timeout_seconds cfg < now - line_timestamp first)%Z
           then Some Timeout
      else None
  end.

(** Modelled from the spec: the chunk the missing chunker builds from a
    buffer (§3, §4.2): the overlap prefix followed by the buffered lines in
    arrival order, the sequence numbers and timestamps of the first and last
    line, the maximum severity of a line and the number of lines. *)
Definition make_chunk (cfg : config) (cid : string) (st : state)
    (first : LogLine) (rest : list LogLine) : Chunk :=
  let buf := first :: rest in
  {| container_id := cid;
     chunk_seq := next_seq st;
     text := overlap_prefix cfg (previous st) +:+ concat_text buf;
     first_seq := line_seq first;
     last_seq := line_seq (List.last rest first);
     time_start := line_timestamp first;
     time_end := line_timestamp (List.last rest first);
     severity := max_severity buf;
     line_count := length buf |}.

(** Modelled from the spec: emission by the missing chunker (§4.2): the whole
    buffer becomes one chunk, the buffer is emptied and the chunk's text is
    remembered for the next overlap.  Nothing is emitted for an empty
    buffer. *)
Definition emit (cfg : config) (cid : string) (why : trigger) (buf : list LogLine)
    (st : state) : state * list emission :=
  match buf with
  | [] => (mkState [] (previous st) (next_seq st), [])
  | first :: rest =>
      let c := make_chunk cfg cid st first rest in
      (mkState [] (Some (text c)) (S (next_seq st)), [mkEmission why c buf])
  end.

(** Modelled from the spec: one step of the missing chunker (§4.2).  A line is
    appended to the buffer and the triggers are tested at the line's
    timestamp; a tick tests them at the time it carries; a stop flushes what
    is buffered. *)
Definition step (cfg : config) (cid : string) (st : state) (ev : event)
    : state * list emission :=
  match ev with
  | Line l =>
      let buf := buffer st ++ [l] in
      match natural_trigger cfg buf (line_timestamp l) with
      | Some why => emit cfg cid why buf st
      | None => (mkState buf (previous st) (next_seq st), [])
      end
  | Tick now =>
      match natural_trigger cfg (buffer st) now with
      | Some why => emit cfg cid why (buffer st) st
      | None => (st, [])
      end
  | Stop => emit cfg cid ForcedFlush (buffer st) st
  end.

(** The chunker of container [cid] over a sequence of events. *)
Fixpoint run (cfg : config) (cid : string) (evs : list event) (st : state)
    : state * list emission :=
  match evs with
  | [] => (st, [])
  | ev :: evs' =>
      let '(st1, out1) := step cfg cid st ev in
      let '(st2, out2) := run cfg cid evs' st1 in
      (st2, out1 ++ out2)
  end.

(** The line stream of a sequence of events. *)
Fixpoint lines_of (evs : list event) : list LogLine :=
  match evs with
  | [] => []
  | Line l :: evs' => l :: lines_of evs'
  | _ :: evs' => lines_of evs'
  end.

(** The texts of successive chunks, each without the overlap it carries from
    the chunk before ([prev] is the text of the chunk before the first one of
    the list). *)
Fixpoint non_overlap_text (cfg : config) (prev : option string) (cs : list Chunk)
    : string :=
  match cs with
  | [] => EmptyString
  | c :: cs' =>
      Text.drop_chars (String.length (overlap_prefix cfg prev)) (text c)
      +:+ non_overlap_text cfg (Some (text c)) cs'
  end.

(** Modelled from the spec: the ingestion tasks of the watcher of
    [app/ingestion/watcher.py], which is not among the sources (§4.1, §5): one
    Chunker state per container, an event goes to the Chunker of its
    container. *)
Definition task_state (tasks : gmap string state) (cid : string) : state :=
  default init (tasks !! cid).

(** Modelled from the spec: an event of a container goes to the task of that
    container of the missing watcher (§4.1, §5); the task of a container not
    seen before starts from the initial state. *)
Definition ingest_step (cfg : config) (tasks : gmap string state)
    (ev : string * event) : gmap string state * list emission :=
  let '(st, out) := step cfg ev.1 (task_state tasks ev.1) ev.2 in
  (<[ev.1 := st]> tasks, out).

(** The ingestion of an interleaved sequence of events of several
    containers. *)
Fixpoint ingest (cfg : config) (evs : list (string * event))
    (tasks : gmap string state) : gmap string state * list emission :=
  match evs with
  | [] => (tasks, [])
  | ev :: evs' =>
      let '(tasks1, out1) := ingest_step cfg tasks ev in
      let '(tasks2, out2) := ingest cfg evs' tasks1 in
      (tasks2, out1 ++ out2)
  end.

(** The events of one container in an interleaved sequence. *)
Definition events_of (cid : string) (evs : list (string * event)) : list event :=
  snd <$> filter (λ ev, ev.1 = cid) evs.

(** *** Predicates the properties of the Chunker are stated with *)

(** The text the next chunk overlaps with, after the chunks [cs]. *)
Definition last_text (prev : option string) (cs : list Chunk) : option string :=
  match last cs with
  | Some c => Some (text c)
  | None => prev
  end.

(** What a step, or a run, owes to the state it starts in: the overlap is
    taken from the chunk before, the emitted texts and the buffer account
    for the buffered and the arriving lines, the chunks are those of the
    container and are numbered in sequence. *)
Definition accounts (cfg : config) (cid : string) (st : state) (ls : list LogLine)
    (res : state * list emission) : Prop :=
  previous res.1 = last_text (previous st) (emitted <$> res.2)
  ∧ non_overlap_text cfg (previous st) (emitted <$> res.2)
      +:+ concat_text (buffer res.1)
    = concat_text (buffer st) +:+ concat_text ls
  ∧ concat (lines <$> res.2) ++ buffer res.1 = buffer st ++ ls
  ∧ Forall (λ e, container_id (emitted e) = cid) res.2
  ∧ (chunk_seq <$> (emitted <$> res.2)) = seq (next_seq st) (length res.2)
  ∧ next_seq res.1 = next_seq st + length res.2.

(** Every chunk of the list is the overlap with the chunk before it followed
    by its own lines, of which it has at least one. *)
Fixpoint chained (cfg : config) (prev : option string) (out : list emission) : Prop :=
  match out with
  | [] => True
  | e :: out' =>
      text (emitted e) = overlap_prefix cfg prev +:+ concat_text (lines e)
      ∧ line_count (emitted e) = length (lines e)
      ∧ lines e ≠ []
      ∧ chained cfg (Some (text (emitted e))) out'
  end.

(** No size or line trigger fires on the buffer: it is empty, or below both
    ceilings. *)
Definition quiet (cfg : config) (buf : list LogLine) : Prop :=
  buf = []
  ∨ (buffer_size buf < max_chunk_size cfg ∧ length buf < max_lines cfg).

(** What the Chunker keeps between events, and what holds of an emission. *)
Definition calm (cfg : config) (st : state) : Prop :=
  quiet cfg (buffer st) ∧ quiet cfg (removelast (buffer st)).

Definition bounded (cfg : config) (e : emission) : Prop :=
  quiet cfg (removelast (lines e))
  ∧ (cause e = MaxSize → max_chunk_size cfg ≤ buffer_size (lines e))
  ∧ (cause e = MaxLines → max_lines cfg ≤ length (lines e)).

(** The bounds of §8 as they are written: but for a forced flush, the text
    of the chunk has between [min_chunk_size] and [max_chunk_size] characters
    and the chunk at most [max_lines] lines. *)
Definition within_bounds (cfg : config) (e : emission) : Prop :=
  cause e = ForcedFlush
  ∨ (min_chunk_size cfg ≤ String.length (text (emitted e))
     ∧ String.length (text (emitted e)) ≤ max_chunk_size cfg
     ∧ line_count (emitted e) ≤ max_lines cfg).

#[global] Instance trigger_eq_dec : EqDecision trigger.
Proof. solve_decision. Defined.

#[global] Instance within_bounds_dec cfg e : Decision (within_bounds cfg e).
Proof. unfold within_bounds. apply _. Defined.

End Chunker.

(** ** Vector Index

    The vector store of [app/storage/vector_store.py] is not among the
    sources: this module follows §3 and §4.3 of the design. *)

Module VectorIndex.

(** Modelled from the spec: an embedding (glossary), a numeric vector, its
    components as fixed-point numbers. *)
Definition vector := list Z.

(** A chunk is known to the index by its container and its sequence number. *)
Definition chunk_id : Type := string * nat.

Definition id_of (c : Chunker.Chunk) : chunk_id :=
  (Chunker.container_id c, Chunker.chunk_seq c).

(** Modelled from the spec: [IndexedChunk] of the missing vector store (§3),
    a chunk with its embedding; the collections it was written to are read
    off the index. *)
Record IndexedChunk := mkIndexed {
  chunk : Chunker.Chunk;
  embedding : vector
}.

Inductive collection := Exact | Approximate | Error.

(** Modelled from the spec: the three collections of the vector store of
    [app/storage/vector_store.py], which is not among the sources (§4.3), each
    a map from chunk ids to indexed chunks. *)
Record index := mkIndex {
  exact : gmap chunk_id IndexedChunk;
  approximate : gmap chunk_id IndexedChunk;
  error : gmap chunk_id IndexedChunk
}.

Definition empty : index := mkIndex ∅ ∅ ∅.

Definition contents (col : collection) (idx : index) : gmap chunk_id IndexedChunk :=
  match col with
  | Exact => exact idx
  | Approximate => approximate idx
  | Error => error idx
  end.

(** The indexed chunk is stored in the collection. *)
Definition stored_in (col : collection) (idx : index) (ic : IndexedChunk) : Prop :=
  contents col idx !! id_of (chunk ic) = Some ic.

(** The invariant of §3 as it is written: the indexed chunk is in exactly one
    of the exact and the approximate collection. *)
Definition in_exactly_one_general (idx : index) (ic : IndexedChunk) : Prop :=
  (stored_in Exact idx ic ∧ ¬ stored_in Approximate idx ic)
  ∨ (¬ stored_in Exact idx ic ∧ stored_in Approximate idx ic).

(** Modelled from the spec: [upsert(chunk, embedding)] of the missing vector
    store (§4.3): writes into exact and approximate, and additionally into
    error if the severity exceeds the error threshold. *)
Definition upsert (threshold : nat) (idx : index) (c : Chunker.Chunk) (e : vector)
    : index :=
  let ic := mkIndexed c e in
  {| exact := <[id_of c := ic]> (exact idx);
     approximate := <[id_of c := ic]> (approximate idx);
     error := if decide (threshold < Chunker.severity c)
              then <[id_of c := ic]> (error idx) else error idx |}.

(** The index after a sequence of upserts. *)
Definition upsert_all (threshold : nat) (idx : index)
    (writes : list (Chunker.Chunk * vector)) : index :=
  foldl (λ acc w, upsert threshold acc w.1 w.2) idx writes.

(** Modelled from the spec: [Candidate] (§3), a chunk reference with its
    stage-1 similarity score and, after stage 2, its relevance score. *)
Record Candidate := mkCandidate {
  ref : chunk_id;
  indexed : IndexedChunk;
  similarity : Z;
  relevance : option Z
}.

Definition by_similarity : relation Candidate :=
  λ a b, (similarity b ≤ similarity a)%Z.

#[global] Instance by_similarity_dec : RelDecision by_similarity.
Proof. intros a b. unfold by_similarity. apply _. Defined.

Section search.
(** The similarity measure of the index is an external capability (§1). *)
Variable sim : vector → vector → Z.

Definition candidate_of (queryEmbedding : vector) (entry : chunk_id * IndexedChunk)
    : Candidate :=
  {| ref := entry.1; indexed := entry.2;
     similarity := sim queryEmbedding (embedding entry.2);
     relevance := None |}.

(** Modelled from the spec:
    [search(collection, queryEmbedding, containerFilter, limit)] of the missing
    vector store (§4.3): up to [limit] chunk references of the collection,
    restricted to the given container, ranked by descending similarity.  Every
    collection is scanned exhaustively: the recall loss of the approximate
    collection is not modelled. *)
Definition search (col : collection) (queryEmbedding : vector)
    (containerFilter : string) (limit : nat) (idx : index) : list Candidate :=
  take limit
    (merge_sort by_similarity
       (candidate_of queryEmbedding
          <$> filter (λ entry, Chunker.container_id (chunk entry.2) = containerFilter)
                (map_to_list (contents col idx)))).

End search.

(** What every sequence of upserts keeps: the exact and the approximate
    collection are the same map, and the error collection holds, of the
    indexed chunks of the exact collection, those above the threshold. *)
Record index_inv (threshold : nat) (idx : index) : Prop := {
  inv_same : exact idx = approximate idx;
  inv_error_above : ∀ i ic,
    error idx !! i = Some ic → threshold < Chunker.severity (chunk ic);
  inv_error_has : ∀ i ic,
    exact idx !! i = Some ic → threshold < Chunker.severity (chunk ic) →
    error idx !! i = Some ic
}.

End VectorIndex.

(** ** Retriever

    The retriever of [app/rag/retriever.py] and the query route of
    [app/api/query.py] are not among the sources: this module follows §3,
    §4.4, §6 and §7 of the design. *)

Module Retriever.
Import VectorIndex.

(** The retrieval options (§6); the defaults of the first three are
    [retriever_config] of the backend's README.  [context_budget] is the
    character budget of the assembled context (§4.4), for which the sources
    give no default. *)
Record config := mkConfig {
  use_reranking : bool;
  initial_k : Z;
  final_k : Z;
  context_budget : nat
}.

Definition default_config : config :=
  {| use_reranking := true; initial_k := 20; final_k := 8; context_budget := 4000 |}.

(** Modelled from the spec: the provider adapter of [app/rag/llm_client.py],
    which is not among the sources (§6): each call answers [None] when its
    retries are exhausted.  [rerank query texts] answers positions in [texts]
    with their relevance scores, most relevant first. *)
Record Adapter := mkAdapter {
  embed : string → option vector;
  rerank : string → list string → option (list (nat * Z));
  generate : string → string → option string
}.

(** Modelled from the spec: the failures a query reports (§7). *)
Inductive failure := ValidationError | ProviderError.

(** Modelled from the spec: a cited source and the response of the query
    contract (§6). *)
Record Source := mkSource {
  chunk_id : VectorIndex.chunk_id;
  container_id : string;
  time_range : Z * Z;
  snippet : string;
  score : Z
}.

Record QueryResponse := mkResponse {
  answer : string;
  sources : list Source
}.

(** Modelled from the spec: the result count of a request of the missing
    query route (§6): the request's [k], by default [final_k]. *)
Definition requested_k (cfg : config) (req : QueryRequest.t) : Z :=
  default (final_k cfg) (QueryRequest.k req).

(** Modelled from the spec: validation of a request by the missing query
    route (§3, §6, §7): [k] out of [1 ≤ k ≤ initial_k] is a validation
    error. *)
Definition validate (cfg : config) (req : QueryRequest.t) : failure + nat :=
  let k := requested_k cfg req in
  if decide (1 ≤ k ∧ k ≤ initial_k cfg)%Z then inr (Z.to_nat k)
  else inl ValidationError.

Definition chunk_text (c : Candidate) : string :=
  Chunker.text (chunk (indexed c)).

Section pipeline.
Variable sim : vector → vector → Z.

(** Modelled from the spec: stage 1 of the retriever of
    [app/rag/retriever.py], which is not among the sources (§4.4): the top
    [initial_k] candidates of the collection, scoped to the request's
    container. *)
Definition stage1 (cfg : config) (col : collection) (idx : index)
    (queryEmbedding : vector) (req : QueryRequest.t) : list Candidate :=
  search sim col queryEmbedding (QueryRequest.container_id req)
    (Z.to_nat (initial_k cfg)) idx.

(** Modelled from the spec: the candidates the reranking capability selected
    (§4.4, step 3), in its order, each with its relevance score. *)
Definition select (cands : list Candidate) (order : list (nat * Z)) : list Candidate :=
  omap (λ pick : nat * Z,
          (λ c, mkCandidate (ref c) (indexed c) (similarity c) (Some pick.2))
            <$> cands !! pick.1)
       order.

(** Modelled from the spec: stage 2 of the missing retriever (§4.4): the
    question and the candidates' texts go to the reranking capability, its
    relevance-ordered subset is truncated to [k]; when reranking fails or is
    disabled the stage-1 order is kept. *)
Definition stage2 (cfg : config) (adapter : Adapter) (question : string) (k : nat)
    (cands : list Candidate) : list Candidate :=
  if use_reranking cfg then
    match rerank adapter question (chunk_text <$> cands) with
    | Some order => take k (select cands order)
    | None => take k cands
    end
  else take k cands.

(** Modelled from the spec: the budget of the context (§4.4, step 4): the
    lowest-relevance chunks are dropped first, so what is kept is the longest
    prefix in relevance order whose texts fit. *)
Fixpoint fit_budget (budget : nat) (cands : list Candidate) : list Candidate :=
  match cands with
  | [] => []
  | c :: cands' =>
      if decide (String.length (chunk_text c) ≤ budget)
      then c :: fit_budget (budget - String.length (chunk_text c)) cands'
      else []
  end.

Definition by_time : relation Candidate :=
  λ a b, (Chunker.time_start (chunk (indexed a))
          ≤ Chunker.time_start (chunk (indexed b)))%Z.

#[local] Instance by_time_dec : RelDecision by_time.
Proof. intros a b. unfold by_time. apply _. Defined.

(** Modelled from the spec: context assembly (§4.4, step 4): the selected
    chunks in ascending order of their time range, concatenated. *)
Definition assemble (cands : list Candidate) : string :=
  foldr (λ c acc, chunk_text c +:+ acc) EmptyString (merge_sort by_time cands).

(** Modelled from the spec: the citation of a chunk (§4.4 step 5, §6), with
    its relevance score, or its similarity score when it was not reranked. *)
Definition source_of (c : Candidate) : Source :=
  {| chunk_id := ref c;
     container_id := Chunker.container_id (chunk (indexed c));
     time_range := (Chunker.time_start (chunk (indexed c)),
                    Chunker.time_end (chunk (indexed c)));
     snippet := chunk_text c;
     score := default (similarity c) (relevance c) |}.

(** Modelled from the spec: steps 1 to 4 of the missing retriever (§4.4): the
    request is validated, the question embedded (no retrieval without an
    embedding), stage 1 and stage 2 run and the selection is cut to the
    context budget.  The result is in relevance order. *)
Definition retrieve (cfg : config) (adapter : Adapter) (col : collection)
    (idx : index) (req : QueryRequest.t) : failure + list Candidate :=
  match validate cfg req with
  | inl err => inl err
  | inr k =>
      match embed adapter (QueryRequest.question req) with
      | None => inl ProviderError
      | Some queryEmbedding =>
          inr (fit_budget (context_budget cfg)
                 (stage2 cfg adapter (QueryRequest.question req) k
                    (stage1 cfg col idx queryEmbedding req)))
      end
  end.

(** Modelled from the spec: the ranked sources of a request (§4.4 step 5),
    what the response cites, in relevance order. *)
Definition ranked_sources (cfg : config) (adapter : Adapter) (col : collection)
    (idx : index) (req : QueryRequest.t) : failure + list Source :=
  match retrieve cfg adapter col idx req with
  | inl err => inl err
  | inr cands => inr (source_of <$> cands)
  end.

Definition no_grounding : string :=
  "No indexed log context was found for this container.".

(** Modelled from the spec: the query of the missing retriever (§4.4 step 5,
    §7): without a retrieved chunk the answer states that no grounding was
    found and cites nothing; otherwise the generation capability is called
    with the question and the assembled context, and its failure is a
    provider failure.  The interactive query searches the approximate
    collection. *)
Definition query (cfg : config) (adapter : Adapter) (idx : index)
    (req : QueryRequest.t) : failure + QueryResponse :=
  match retrieve cfg adapter Approximate idx req with
  | inl err => inl err
  | inr [] => inr (mkResponse no_grounding [])
  | inr cands =>
      match generate adapter (QueryRequest.question req) (assemble cands) with
      | None => inl ProviderError
      | Some text => inr (mkResponse text (source_of <$> cands))
      end
  end.

End pipeline.


End Retriever.

(** ** Scenarios *)

Module Scenario.
Import Chunker VectorIndex Retriever.

Definition char_x : Ascii.ascii := Ascii.ascii_of_nat 120.

(** One line of 1600 characters. *)
Definition long_line : LogLine :=
  mkLine "container-1" 0 0 (Text.repeat_char char_x 1600) INFO.

(** Thirty lines of 7 characters, one a second. *)
Definition short_lines : list LogLine :=
  (λ n, mkLine "container-1" n (Z.of_nat n) (Text.repeat_char char_x 7) INFO)
    <$> seq 0 30.

(** Thirty lines of 100 characters, one a second. *)
Definition even_lines : list LogLine :=
  (λ n, mkLine "container-1" n (Z.of_nat n) (Text.repeat_char char_x 100) INFO)
    <$> seq 0 30.

(** A partial buffer of 150 characters (§8). *)
Definition partial_line : LogLine :=
  mkLine "container-1" 0 0 (Text.repeat_char char_x 150) INFO.

(** Ten lines of 50 characters, INFO and ERROR interleaved (§8). *)
Definition interleaved_lines : list LogLine :=
  (λ n, mkLine "container-1" n (Z.of_nat n) (Text.repeat_char char_x 50)
          (if Nat.even n then INFO else ERROR))
    <$> seq 0 10.

Definition chunk0 : Chunk :=
  mkChunk "container-1" 0 "ERROR boom" 0 0 100 100 4 1.
Definition chunk1 : Chunk :=
  mkChunk "container-1" 1 "INFO started" 1 1 101 101 2 1.
Definition chunk2 : Chunk :=
  mkChunk "container-1" 2 "WARN slow" 2 2 102 102 3 1.
Definition other0 : Chunk :=
  mkChunk "container-2" 0 "INFO elsewhere" 0 0 100 100 2 1.

(** An index of three chunks of one container and one chunk of another. *)
Definition sample_index : index :=
  upsert_all 3 VectorIndex.empty
    [ (chunk0, [0; 1]%Z); (chunk1, [1; 0]%Z); (chunk2, [1; 1]%Z);
      (other0, [5; 5]%Z) ].

(** A similarity measure: the inner product. *)
Fixpoint dot (u v : vector) : Z :=
  match u, v with
  | a :: u', b :: v' => (a * b + dot u' v')%Z
  | _, _ => 0%Z
  end.

(** Providers with fixed answers. *)
Definition sample_adapter : Adapter :=
  {| embed := λ _, Some [1; 2]%Z;
     rerank := λ _ _, Some [(2, 90%Z); (0, 40%Z)];
     generate := λ _ _, Some "The container logged an error." |}.



Definition sample_request : QueryRequest.t :=
  Integration.queryLogs "container-1" "What errors occurred?".

End Scenario.

(* ================================================================== *)
(** * Properties *)

(** ** The chat state of [Index] *)

Section chat_state.
Import Index.

Implicit Types (st : state) (logs : list ContainerLogs.t) (c : Container.t).

(** The predicate both [find] and [findIndex] are called with. *)
Local Abbreviation of_container c :=
  (λ log : ContainerLogs.t, ContainerLogs.containerId log = Container.id c).

Lemma find_first logs c pre log post :
  logs = pre ++ log :: post →
  ContainerLogs.containerId log = Container.id c →
  Forall (λ l, ContainerLogs.containerId l ≠ Container.id c) pre →
  list_find (of_container c) logs = Some (length pre, log).
Proof.
  intros -> Hid Hpre. apply list_find_Some. split_and!.
  - by rewrite list_lookup_middle.
  - done.
  - intros j y Hj Hlt. rewrite lookup_app_l in Hj by done.
    by eapply (Forall_lookup_1 _ pre) in Hpre.
Qed.

Lemma find_none logs c :
  Forall (λ l, ContainerLogs.containerId l ≠ Container.id c) logs →
  list_find (of_container c) logs = None.
Proof. intros. by apply list_find_None. Qed.

(** Every list of logs splits at the first entry of a container, or has
    none. *)
Lemma first_entry_split logs c :
  Forall (λ l, ContainerLogs.containerId l ≠ Container.id c) logs ∨
  ∃ pre log post,
    logs = pre ++ log :: post ∧
    ContainerLogs.containerId log = Container.id c ∧
    Forall (λ l, ContainerLogs.containerId l ≠ Container.id c) pre.
Proof.
  induction logs as [|l logs IH]; [by left|].
  destruct (decide (ContainerLogs.containerId l = Container.id c)) as [Heq|Hne].
  - right. by exists [], l, logs.
  - destruct IH as [IH|(pre & log & post & -> & ? & ?)].
    + left. by constructor.
    + right. exists (l :: pre), log, post. split_and!; [done..|by constructor].
Qed.

Lemma updateLogs_new c u b logs :
  Forall (λ l, ContainerLogs.containerId l ≠ Container.id c) logs →
  updateLogs c u b logs = logs ++ [ContainerLogs.mk (Container.id c) [u; b]].
Proof. intros H. unfold updateLogs. by rewrite find_none. Qed.

Lemma updateLogs_existing c u b pre log post :
  ContainerLogs.containerId log = Container.id c →
  Forall (λ l, ContainerLogs.containerId l ≠ Container.id c) pre →
  updateLogs c u b (pre ++ log :: post) =
    pre ++ ContainerLogs.mk (Container.id c) (ContainerLogs.messages log ++ [u; b]) :: post.
Proof.
  intros Hid Hpre. unfold updateLogs.
  rewrite (find_first _ c pre log post) by done.
  rewrite <- (Nat.add_0_r (length pre)), insert_app_r. simpl. by rewrite Hid.
Qed.

(** The entries of the other containers are the same before and after. *)
Lemma updateLogs_frame c u b logs (other : string) :
  other ≠ Container.id c →
  filter (λ l, ContainerLogs.containerId l = other) (updateLogs c u b logs)
  = filter (λ l, ContainerLogs.containerId l = other) logs.
Proof.
  intros Hother.
  destruct (first_entry_split logs c) as [Hnone|(pre & log & post & -> & Hid & Hpre)].
  - rewrite updateLogs_new by done. rewrite filter_app.
    rewrite filter_cons_False by (simpl; congruence).
    by rewrite filter_nil, app_nil_r.
  - rewrite updateLogs_existing by done. rewrite !filter_app.
    rewrite !filter_cons_False by (simpl; congruence). done.
Qed.

(** The ids of the log entries stay pairwise distinct. *)
Lemma updateLogs_NoDup c u b logs :
  NoDup (ContainerLogs.containerId <$> logs) →
  NoDup (ContainerLogs.containerId <$> updateLogs c u b logs).
Proof.
  intros Hnd.
  destruct (first_entry_split logs c) as [Hnone|(pre & log & post & -> & Hid & Hpre)].
  - rewrite updateLogs_new by done. rewrite fmap_app. simpl.
    apply NoDup_app. split_and!; [done| |apply NoDup_singleton].
    intros x Hx ->%list_elem_of_singleton.
    apply list_elem_of_fmap in Hx as (l & Hl & Hin).
    rewrite Forall_forall in Hnone. by apply (Hnone l).
  - rewrite updateLogs_existing by done.
    revert Hnd. rewrite !fmap_app, !fmap_cons. simpl. by rewrite Hid.
Qed.

(** With pairwise distinct ids, an entry of the container is the one [find]
    returns. *)
Lemma find_unique logs c log :
  NoDup (ContainerLogs.containerId <$> logs) →
  log ∈ logs →
  ContainerLogs.containerId log = Container.id c →
  ∃ i, list_find (of_container c) logs = Some (i, log).
Proof.
  intros Hnd Hin Hid.
  destruct (list_find_elem_of (of_container c) logs log Hin Hid) as [[i log'] Hfind].
  exists i. rewrite Hfind. do 2 f_equal.
  apply list_find_Some in Hfind as (Hi & Hid' & _).
  apply list_elem_of_lookup in Hin as [j Hj].
  assert (i = j) as ->; [|congruence].
  eapply NoDup_lookup; [exact Hnd| |].
  - by rewrite list_lookup_fmap, Hi.
  - rewrite list_lookup_fmap, Hj. simpl. congruence.
Qed.

Lemma concat_messages_updateLogs c u b logs :
  concat (ContainerLogs.messages <$> updateLogs c u b logs)
  ≡ₚ concat (ContainerLogs.messages <$> logs) ++ [u; b].
Proof.
  destruct (first_entry_split logs c) as [Hnone|(pre & log & post & -> & Hid & Hpre)].
  - rewrite updateLogs_new by done.
    by rewrite fmap_app, concat_app; simpl.
  - rewrite updateLogs_existing by done.
    rewrite !fmap_app, !concat_app, !fmap_cons, !concat_cons. simpl.
    rewrite <- !app_assoc. apply Permutation_app_head, Permutation_app_head.
    apply Permutation_app_comm.
Qed.

(** C1 (chat view): what [currentMessages] shows for the selected container
    is the message list of the first log entry whose [containerId] is the
    selected container's id, which is the only such entry when the ids are
    pairwise distinct; it is empty without such an entry and without a
    selection; and every message shown is a message of an entry of the
    selected container. *)
Theorem C1_currentMessages_of_selected_container logs (sel : option Container.t) :
  let st := mkState sel logs in
  (sel = None → currentMessages st = []) ∧
  (∀ c, sel = Some c →
     Forall (λ l, ContainerLogs.containerId l ≠ Container.id c) logs →
     currentMessages st = []) ∧
  (∀ c pre log post, sel = Some c →
     logs = pre ++ log :: post →
     ContainerLogs.containerId log = Container.id c →
     Forall (λ l, ContainerLogs.containerId l ≠ Container.id c) pre →
     currentMessages st = ContainerLogs.messages log) ∧
  (∀ c log, sel = Some c →
     NoDup (ContainerLogs.containerId <$> logs) →
     log ∈ logs →
     ContainerLogs.containerId log = Container.id c →
     currentMessages st = ContainerLogs.messages log) ∧
  (∀ c m, sel = Some c →
     m ∈ currentMessages st →
     ∃ log, log ∈ logs ∧ ContainerLogs.containerId log = Container.id c
            ∧ m ∈ ContainerLogs.messages log).
Proof.
  intros st. unfold currentMessages, st. simpl. split_and!.
  - by intros ->.
  - intros c -> Hnone. by rewrite find_none.
  - intros c pre log post -> Hlogs Hid Hpre.
    by rewrite (find_first logs c pre log post).
  - intros c log -> Hnd Hin Hid.
    destruct (find_unique logs c log Hnd Hin Hid) as [i ->]. done.
  - intros c m ->.
    destruct (list_find _ logs) as [[i log]|] eqn:Hfind.
    + apply list_find_Some in Hfind as (Hi & Hid & _).
      intros Hm. exists log. split_and!; [|done..].
      by eapply list_elem_of_lookup_2.
    + by intros ?%elem_of_nil.
Qed.

(** C8: with a container selected, [handleSendMessage] appends the user
    message and then the bot message to the messages shown for that
    container, creating the entry when there is none and otherwise rewriting
    the first entry of the container in place; the entries and the views of
    every other container are as before, and no other message is recorded. *)
Theorem C8_handleSendMessage_appends_user_then_bot
    (clk : clock) (messageContent : string) logs c :
  let st := mkState (Some c) logs in
  let st' := handleSendMessage clk messageContent st in
  let u := userMessage clk messageContent in
  let b := botMessage clk messageContent in
  ChatMessage.type u = ChatMessage.user ∧
  ChatMessage.content u = messageContent ∧
  ChatMessage.type b = ChatMessage.bot ∧
  selectedContainer st' = Some c ∧
  currentMessages st' = currentMessages st ++ [u; b] ∧
  (Forall (λ l, ContainerLogs.containerId l ≠ Container.id c) logs →
     chatLogs st' = logs ++ [ContainerLogs.mk (Container.id c) [u; b]]) ∧
  (∀ pre log post,
     logs = pre ++ log :: post →
     ContainerLogs.containerId log = Container.id c →
     Forall (λ l, ContainerLogs.containerId l ≠ Container.id c) pre →
     chatLogs st' =
       pre ++ ContainerLogs.mk (Container.id c) (ContainerLogs.messages log ++ [u; b])
           :: post) ∧
  (∀ other : string, other ≠ Container.id c →
     filter (λ l, ContainerLogs.containerId l = other) (chatLogs st')
     = filter (λ l, ContainerLogs.containerId l = other) logs) ∧
  (∀ c', Container.id c' ≠ Container.id c →
     currentMessages (mkState (Some c') (chatLogs st'))
     = currentMessages (mkState (Some c') logs)) ∧
  concat (ContainerLogs.messages <$> chatLogs st')
  ≡ₚ concat (ContainerLogs.messages <$> logs) ++ [u; b].
Proof.
  intros st st' u b. unfold st', st, handleSendMessage. simpl.
  fold u b. split_and!; try done.
  - unfold currentMessages. simpl.
    destruct (first_entry_split logs c) as [Hnone|(pre & log & post & -> & Hid & Hpre)].
    + rewrite updateLogs_new, (find_none logs) by done.
      by rewrite (find_first (logs ++ [ContainerLogs.mk (Container.id c) [u; b]]) c
                logs (ContainerLogs.mk (Container.id c) [u; b]) []).
    + rewrite updateLogs_existing by done.
      rewrite (find_first (pre ++ log :: post) c pre log post) by done.
      by rewrite (find_first _ c pre
                (ContainerLogs.mk (Container.id c) (ContainerLogs.messages log ++ [u; b]))
                post).
  - apply updateLogs_new.
  - intros pre log post -> Hid Hpre. by apply updateLogs_existing.
  - intros other Hother. by apply updateLogs_frame.
  - intros c' Hc'. unfold currentMessages. simpl.
    destruct (first_entry_split logs c) as [Hnone|(pre & log & post & -> & Hid & Hpre)].
    + rewrite updateLogs_new by done.
      destruct (list_find (of_container c') logs) as [[i l]|] eqn:Hfind.
      * by erewrite list_find_app_l.
      * rewrite list_find_app_r by done. simpl.
        rewrite decide_False by (simpl; congruence). done.
    + rewrite updateLogs_existing by done.
      destruct (list_find (of_container c') pre) as [[i l]|] eqn:Hfind.
      * by erewrite !list_find_app_l.
      * rewrite !list_find_app_r by done. simpl.
        rewrite !decide_False by (simpl; congruence). done.
  - apply concat_messages_updateLogs.
Qed.

(** C9: without a selected container [handleSendMessage] leaves the state,
    and so every container's log, as it is. *)
Theorem C9_handleSendMessage_without_selection
    (clk : clock) (messageContent : string) st :
  selectedContainer st = None →
  handleSendMessage clk messageContent st = st
  ∧ chatLogs (handleSendMessage clk messageContent st) = chatLogs st.
Proof.
  intros Hsel. unfold handleSendMessage. by rewrite Hsel.
Qed.

(** C9 at a state with one log entry and no selection. *)
Lemma C9_handleSendMessage_without_selection_witness :
  let st := mkState None
              [ContainerLogs.mk "container-1"
                 [ChatMessage.mk "msg-1-user" ChatMessage.user "ps" 1%Z]] in
  selectedContainer st = None
  ∧ handleSendMessage (mkClock 5 6 7 8) "logs?" st = st.
Proof.
  split; [reflexivity|].
  apply (C9_handleSendMessage_without_selection (mkClock 5 6 7 8) "logs?"
           (mkState None
              [ContainerLogs.mk "container-1"
                 [ChatMessage.mk "msg-1-user" ChatMessage.user "ps" 1%Z]])).
  reflexivity.
Defined.

(** In every state of the component the log entries have pairwise distinct
    container ids: a container has at most one entry. *)
Theorem reachable_distinct_containerIds st :
  reachable st → NoDup (ContainerLogs.containerId <$> chatLogs st).
Proof.
  induction 1 as [|container st _ IH|clk messageContent st _ IH]; simpl.
  - constructor.
  - done.
  - unfold handleSendMessage. destruct (selectedContainer st); [|done].
    simpl. by apply updateLogs_NoDup.
Qed.

(** The state after selecting the first mock container and sending one
    message. *)
Lemma reachable_distinct_containerIds_witness :
  let st := handleSendMessage (mkClock 5 6 7 8) "logs?"
              (handleContainerSelect
                 (Container.mk "container-1" "web-app" "nginx:latest" "running"
                    "2024-01-15T10:30:00Z" None)
                 initial) in
  reachable st ∧ NoDup (ContainerLogs.containerId <$> chatLogs st).
Proof.
  intros st. split.
  - repeat constructor.
  - apply (reachable_distinct_containerIds st). repeat constructor.
Defined.

End chat_state.

(** ** The two groups of the sidebar *)

Section sidebar.
Import ContainerSidebar.

(** C10: the running group holds exactly the containers whose status is
    ['running'], the stopped group exactly those of any other status, no
    container is in both, each group keeps the order of the input, and the
    two groups together are the input list, each container as often as it
    occurs there. *)
Theorem C10_sidebar_groups_partition (containers : list Container.t) :
  (∀ c, c ∈ runningContainers containers
        ↔ c ∈ containers ∧ Container.status c = "running") ∧
  (∀ c, c ∈ stoppedContainers containers
        ↔ c ∈ containers ∧ Container.status c ≠ "running") ∧
  (∀ c, ¬ (c ∈ runningContainers containers ∧ c ∈ stoppedContainers containers)) ∧
  sublist (runningContainers containers) containers ∧
  sublist (stoppedContainers containers) containers ∧
  runningContainers containers ++ stoppedContainers containers ≡ₚ containers.
Proof.
  unfold runningContainers, stoppedContainers. split_and!.
  - intros c. rewrite list_elem_of_filter. tauto.
  - intros c. rewrite list_elem_of_filter. tauto.
  - intros c. rewrite !list_elem_of_filter. tauto.
  - apply sublist_filter.
  - apply sublist_filter.
  - apply (filter_app_complement (λ container, Container.status container = "running")).
Qed.

End sidebar.

(** ** The request of the integration guide *)

Section query_request.
Import Retriever.

(** C6: [k] is optional and defaults to 8; a request is accepted exactly when
    [1 ≤ k ≤ initial_k], where [initial_k] defaults to 20; and every request
    [queryLogs] builds carries [k = 8], which the default configuration, and
    any configuration with [8 ≤ initial_k], accepts. *)
Theorem C6_queryLogs_k_within_bound (containerId question : string) :
  let req := Integration.queryLogs containerId question in
  QueryRequest.container_id req = containerId ∧
  QueryRequest.question req = question ∧
  QueryRequest.k req = Some 8%Z ∧
  final_k default_config = 8%Z ∧
  initial_k default_config = 20%Z ∧
  requested_k default_config (QueryRequest.mk containerId question None) = 8%Z ∧
  requested_k default_config req = 8%Z ∧
  validate default_config req = inr 8 ∧
  (∀ cfg, (8 ≤ initial_k cfg)%Z → validate cfg req = inr 8) ∧
  (∀ cfg r, (∃ n, validate cfg r = inr n)
            ↔ (1 ≤ requested_k cfg r ∧ requested_k cfg r ≤ initial_k cfg)%Z).
Proof.
  intros req. split_and!; try reflexivity.
  - intros cfg Hk. unfold validate, requested_k, req. simpl.
    rewrite decide_True by lia. done.
  - intros cfg r. unfold validate. case_decide; split.
    + done.
    + eauto.
    + by intros [n ?].
    + done.
Qed.

End query_request.

(** ** The collections of the vector index *)

Section vector_index.
Import VectorIndex.

Implicit Types (idx : index) (ic : IndexedChunk) (c : Chunker.Chunk) (e : vector).

Lemma index_inv_empty threshold : index_inv threshold empty.
Proof. split; [done|intros ?? [=]..]. Qed.

Lemma index_inv_upsert threshold idx c e :
  index_inv threshold idx → index_inv threshold (upsert threshold idx c e).
Proof.
  intros [Hsame Habove Hhas]. split; simpl.
  - by rewrite Hsame.
  - intros i ic. case_decide as Hsev; [|by apply Habove].
    destruct (decide (i = id_of c)) as [->|Hne].
    + rewrite lookup_insert_eq. by intros [= <-].
    + rewrite lookup_insert_ne by done. apply Habove.
  - intros i ic. destruct (decide (i = id_of c)) as [->|Hne].
    + rewrite lookup_insert_eq. intros [= <-]. simpl. intros Hsev.
      rewrite decide_True by done. by rewrite lookup_insert_eq.
    + rewrite lookup_insert_ne by done. intros Hi Hsev.
      case_decide; [rewrite lookup_insert_ne by done|]; by apply Hhas.
Qed.

Lemma index_inv_upsert_all threshold writes idx :
  index_inv threshold idx → index_inv threshold (upsert_all threshold idx writes).
Proof.
  revert idx. induction writes as [|w writes IH]; intros idx Hinv; [done|].
  simpl. by apply IH, index_inv_upsert.
Qed.

(** C2, as stated, fails: after its upsert into the empty index the chunk is
    in the exact and in the approximate collection, not in exactly one. *)
Lemma C2_upsert_writes_both_collections :
  let idx := upsert 3 empty Scenario.chunk0 [1%Z; 2%Z] in
  let ic := mkIndexed Scenario.chunk0 [1%Z; 2%Z] in
  stored_in Exact idx ic ∧ stored_in Approximate idx ic
  ∧ ¬ in_exactly_one_general idx ic.
Proof.
  assert (stored_in Exact (upsert 3 empty Scenario.chunk0 [1%Z; 2%Z])
            (mkIndexed Scenario.chunk0 [1%Z; 2%Z])) as Hexact
    by apply lookup_insert_eq.
  assert (stored_in Approximate (upsert 3 empty Scenario.chunk0 [1%Z; 2%Z])
            (mkIndexed Scenario.chunk0 [1%Z; 2%Z])) as Happrox
    by apply lookup_insert_eq.
  split_and!; [done..|]. intros [[_ Hno]|[Hno _]]; by apply Hno.
Qed.

(** C2, amended: after any sequence of upserts into the empty index, an
    indexed chunk is stored in the exact collection if and only if it is
    stored in the approximate one, and one stored there is in the error
    collection if and only if its severity exceeds the threshold; a chunk
    just upserted is stored in both, and in the error collection if and only
    if its severity exceeds the threshold. *)
Theorem C2_upsert_exact_and_approximate (threshold : nat)
    (writes : list (Chunker.Chunk * vector)) :
  let idx := upsert_all threshold empty writes in
  (∀ ic, stored_in Exact idx ic ↔ stored_in Approximate idx ic) ∧
  (∀ ic, stored_in Exact idx ic →
     (stored_in Error idx ic ↔ threshold < Chunker.severity (chunk ic))) ∧
  (∀ c e,
     let idx' := upsert threshold idx c e in
     stored_in Exact idx' (mkIndexed c e) ∧
     stored_in Approximate idx' (mkIndexed c e) ∧
     (stored_in Error idx' (mkIndexed c e) ↔ threshold < Chunker.severity c)).
Proof.
  intros idx.
  assert (index_inv threshold idx) as Hinv
    by apply index_inv_upsert_all, index_inv_empty.
  split_and!.
  - intros ic. unfold stored_in. simpl. by rewrite (inv_same _ _ Hinv).
  - intros ic Hic. unfold stored_in in *. simpl in *. split.
    + apply (inv_error_above _ _ Hinv).
    + by apply (inv_error_has _ _ Hinv).
  - intros c e idx'. unfold stored_in, idx'. simpl. split_and!.
    + apply lookup_insert_eq.
    + apply lookup_insert_eq.
    + case_decide as Hsev.
      * rewrite lookup_insert_eq. done.
      * split; [|done]. intros Herr.
        by apply (inv_error_above _ _ Hinv) in Herr.
Qed.

End vector_index.

(** ** Search and the two stages of retrieval *)

Section retrieval.
Import VectorIndex Retriever.

Variable sim : vector → vector → Z.

Implicit Types (idx : index) (cands : list Candidate) (order : list (nat * Z)).

#[local] Instance by_similarity_total : Total by_similarity.
Proof. intros a b. unfold by_similarity. lia. Qed.

#[local] Instance by_similarity_trans : Transitive by_similarity.
Proof. intros a b c. unfold by_similarity. lia. Qed.

(** The entries of a collection that belong to a container. *)
Local Abbreviation scoped col idx A :=
  (filter (λ entry : VectorIndex.chunk_id * IndexedChunk,
             Chunker.container_id (chunk entry.2) = A)
     (map_to_list (contents col idx))).

Lemma search_elem col qe A limit idx c :
  c ∈ search sim col qe A limit idx →
  contents col idx !! ref c = Some (indexed c)
  ∧ Chunker.container_id (chunk (indexed c)) = A
  ∧ similarity c = sim qe (embedding (indexed c))
  ∧ relevance c = None.
Proof.
  unfold search. intros Hc%subseteq_take.
  rewrite merge_sort_Permutation in Hc.
  apply list_elem_of_fmap in Hc as ([i ic] & -> & Hin).
  apply list_elem_of_filter in Hin as [HA Hin].
  apply elem_of_map_to_list in Hin. done.
Qed.




Lemma search_sorted col qe A limit idx :
  StronglySorted by_similarity (search sim col qe A limit idx).
Proof.
  unfold search. eapply (StronglySorted_app_1_l by_similarity).
  rewrite take_drop. apply StronglySorted_merge_sort; apply _.
Qed.

(** What [select] keeps of a candidate, and where it takes it from. *)
Lemma select_elem cands order c :
  c ∈ select cands order →
  ∃ i s c0, (i, s) ∈ order ∧ cands !! i = Some c0
            ∧ c = mkCandidate (ref c0) (indexed c0) (similarity c0) (Some s).
Proof.
  unfold select. intros ([i s] & Hin & Hc)%list_elem_of_omap. simpl in Hc.
  destruct (cands !! i) as [c0|] eqn:Hi; simplify_eq/=. by exists i, s, c0.
Qed.




Lemma stage2_elem cfg adapter question k cands c :
  c ∈ stage2 cfg adapter question k cands →
  ∃ c0, c0 ∈ cands ∧ ref c = ref c0 ∧ indexed c = indexed c0
        ∧ similarity c = similarity c0.
Proof.
  unfold stage2.
  destruct (use_reranking cfg),
    (rerank adapter question (chunk_text <$> cands)) as [order|];
    intros Hc%subseteq_take; try by exists c.
  apply select_elem in Hc as (i & s & c0 & _ & Hc0 & ->).
  exists c0. split; [|done]. by eapply list_elem_of_lookup_2.
Qed.





Lemma fit_budget_sublist budget cands : fit_budget budget cands `sublist_of` cands.
Proof.
  revert budget. induction cands as [|c cands IH]; intros budget; simpl; [done|].
  case_decide.
  - by apply sublist_skip.
  - apply sublist_nil_l.
Qed.

Lemma retrieve_inr cfg adapter col idx req cands :
  retrieve sim cfg adapter col idx req = inr cands →
  ∃ k qe,
    validate cfg req = inr k
    ∧ embed adapter (QueryRequest.question req) = Some qe
    ∧ cands = fit_budget (context_budget cfg)
                (stage2 cfg adapter (QueryRequest.question req) k
                   (stage1 sim cfg col idx qe req)).
Proof.
  unfold retrieve. destruct (validate cfg req) as [err|k]; [done|].
  destruct (embed adapter _) as [qe|]; [|done].
  intros [= <-]. by exists k, qe.
Qed.


Lemma query_sources cfg adapter idx req resp :
  query sim cfg adapter idx req = inr resp →
  ∃ cands, retrieve sim cfg adapter Approximate idx req = inr cands
           ∧ sources resp = source_of <$> cands.
Proof.
  unfold query. destruct (retrieve _ _ _ _ _ _) as [err|cands]; [done|].
  destruct cands as [|c cands]; [intros [= <-]; by exists []|].
  destruct (generate _ _ _); [|done]. intros [= <-]. by eexists.
Qed.


(** Retrieval is scoped: a search returns chunks of the container it is
    restricted to, and a response cites chunks of the request's container. *)
Lemma search_scoped_to_container col qe (A : string) limit idx c :
  c ∈ search sim col qe A limit idx →
  Chunker.container_id (chunk (indexed c)) = A.
Proof. by intros (_ & ? & _)%search_elem. Qed.

Lemma query_scoped_to_container cfg adapter idx (req : QueryRequest.t) resp src :
  query sim cfg adapter idx req = inr resp →
  src ∈ sources resp →
  Retriever.container_id src = QueryRequest.container_id req.
Proof.
  intros (cands & Hcands & ->)%query_sources (c & -> & Hc)%list_elem_of_fmap.
  apply retrieve_inr in Hcands as (k & qe & _ & _ & ->).
  apply (sublist_subseteq _ _ (fit_budget_sublist _ _)) in Hc.
  apply stage2_elem in Hc as (c0 & Hc0 & _ & Hindexed & _).
  simpl. rewrite Hindexed. by eapply search_scoped_to_container.
Qed.

End retrieval.



(** ** Text *)

Section text.
Import Text.

Lemma append_cons a (s t : string) : String a s +:+ t = String a (s +:+ t).
Proof. reflexivity. Qed.

Lemma append_nil_r (s : string) : s +:+ "" = s.
Proof. induction s as [|a s IH]; [done|]. by rewrite append_cons, IH. Qed.

Lemma append_assoc (s1 s2 s3 : string) : (s1 +:+ s2) +:+ s3 = s1 +:+ (s2 +:+ s3).
Proof. induction s1 as [|a s1 IH]; [done|]. by rewrite !append_cons, IH. Qed.

Lemma length_append (s1 s2 : string) :
  String.length (s1 +:+ s2) = String.length s1 + String.length s2.
Proof. induction s1 as [|a s1 IH]; [done|]. rewrite append_cons. simpl. by rewrite IH. Qed.

Lemma drop_chars_append (p s : string) : drop_chars (String.length p) (p +:+ s) = s.
Proof. induction p as [|a p IH]; [by destruct s|]. rewrite append_cons. exact IH. Qed.

Lemma length_drop_chars n (s : string) :
  String.length (drop_chars n s) = String.length s - n.
Proof.
  revert s. induction n as [|n IH]; intros [|a s]; simpl; by try lia.
Qed.

Lemma length_tail_chars n (s : string) :
  String.length (tail_chars n s) = n `min` String.length s.
Proof. unfold tail_chars. rewrite length_drop_chars. lia. Qed.

Lemma length_repeat_char a n : String.length (repeat_char a n) = n.
Proof. induction n as [|n IH]; [done|]. simpl. by rewrite IH. Qed.

End text.

(** ** The Chunker: what is emitted accounts for the stream *)

Section chunker_stream.
Import Text Chunker.

Implicit Types (cfg : config) (st : state) (buf ls : list LogLine)
  (out : list emission) (cs : list Chunk) (prev : option string).

Lemma concat_text_app ls1 ls2 :
  concat_text (ls1 ++ ls2) = concat_text ls1 +:+ concat_text ls2.
Proof.
  induction ls1 as [|l ls1 IH]; [done|].
  simpl. fold (concat_text (ls1 ++ ls2)) (concat_text ls1).
  by rewrite IH, append_assoc.
Qed.

Lemma last_text_cons prev c cs : last_text prev (c :: cs) = last_text (Some (text c)) cs.
Proof. unfold last_text. rewrite last_cons. by destruct (last cs). Qed.

Lemma last_text_app prev cs1 cs2 :
  last_text prev (cs1 ++ cs2) = last_text (last_text prev cs1) cs2.
Proof.
  revert prev. induction cs1 as [|c cs1 IH]; intros prev; [done|].
  by rewrite <- app_comm_cons, !last_text_cons, IH.
Qed.

Lemma non_overlap_text_app cfg prev cs1 cs2 :
  non_overlap_text cfg prev (cs1 ++ cs2)
  = non_overlap_text cfg prev cs1 +:+ non_overlap_text cfg (last_text prev cs1) cs2.
Proof.
  revert prev. induction cs1 as [|c cs1 IH]; intros prev; [done|].
  rewrite <- app_comm_cons, last_text_cons. simpl.
  by rewrite IH, append_assoc.
Qed.

Lemma emit_accounts cfg cid why buf st ls :
  buf = buffer st ++ ls →
  accounts cfg cid st ls (emit cfg cid why buf st).
Proof.
  intros Hbuf. unfold emit. destruct buf as [|first rest].
  - symmetry in Hbuf. apply app_eq_nil in Hbuf as [Hb ->].
    unfold accounts. simpl. rewrite Hb. split_and!; done || lia.
  - unfold accounts. simpl. rewrite <- Hbuf. split_and!.
    + done.
    + rewrite drop_chars_append, !append_nil_r, <- concat_text_app.
      by rewrite <- Hbuf.
    + by rewrite !app_nil_r.
    + by repeat constructor.
    + done.
    + lia.
Qed.

Lemma step_accounts cfg cid st ev :
  accounts cfg cid st (lines_of [ev]) (step cfg cid st ev).
Proof.
  destruct ev as [l|now|]; simpl.
  - destruct (natural_trigger cfg (buffer st ++ [l]) (line_timestamp l)) as [why|].
    + by apply emit_accounts.
    + unfold accounts. simpl. rewrite concat_text_app. split_and!; done || lia.
  - destruct (natural_trigger cfg (buffer st) now) as [why|].
    + apply emit_accounts. by rewrite app_nil_r.
    + unfold accounts. simpl. rewrite app_nil_r, append_nil_r.
      split_and!; done || lia.
  - apply emit_accounts. by rewrite app_nil_r.
Qed.

Lemma accounts_trans cfg cid st ls1 ls2 res1 res2 :
  accounts cfg cid st ls1 res1 →
  accounts cfg cid res1.1 ls2 res2 →
  accounts cfg cid st (ls1 ++ ls2) (res2.1, res1.2 ++ res2.2).
Proof.
  intros (Hp1 & Ht1 & Hl1 & Hc1 & Hs1 & Hn1) (Hp2 & Ht2 & Hl2 & Hc2 & Hs2 & Hn2).
  unfold accounts. simpl. rewrite !fmap_app. split_and!.
  - by rewrite last_text_app, <- Hp1.
  - rewrite non_overlap_text_app, <- Hp1, append_assoc, Ht2.
    by rewrite <- append_assoc, Ht1, concat_text_app, append_assoc.
  - rewrite concat_app, <- app_assoc, Hl2, !app_assoc. by rewrite Hl1.
  - by apply Forall_app.
  - rewrite Hs1, Hs2, Hn1, length_app. by rewrite seq_app.
  - rewrite Hn2, Hn1, length_app. lia.
Qed.

Lemma lines_of_app evs1 evs2 : lines_of (evs1 ++ evs2) = lines_of evs1 ++ lines_of evs2.
Proof.
  induction evs1 as [|[l|now|] evs1 IH]; simpl; by rewrite ?IH.
Qed.

Lemma run_accounts cfg cid evs st :
  accounts cfg cid st (lines_of evs) (run cfg cid evs st).
Proof.
  revert st. induction evs as [|ev evs IH]; intros st.
  - unfold accounts. simpl. rewrite app_nil_r, append_nil_r. split_and!; done || lia.
  - change (ev :: evs) with ([ev] ++ evs) at 1. rewrite lines_of_app.
    cbn [run]. pose proof (step_accounts cfg cid st ev) as Hstep.
    destruct (step cfg cid st ev) as [st1 out1].
    pose proof (IH st1) as Hrun.
    destruct (run cfg cid evs st1) as [st2 out2].
    apply (accounts_trans cfg cid st _ _ (st1, out1) (st2, out2)); done.
Qed.

Lemma run_app cfg cid evs1 evs2 st :
  run cfg cid (evs1 ++ evs2) st
  = ((run cfg cid evs2 (run cfg cid evs1 st).1).1,
     (run cfg cid evs1 st).2 ++ (run cfg cid evs2 (run cfg cid evs1 st).1).2).
Proof.
  revert st. induction evs1 as [|ev evs1 IH]; intros st.
  - simpl. by destruct (run cfg cid evs2 st).
  - simpl. destruct (step cfg cid st ev) as [st1 out1]. rewrite IH.
    destruct (run cfg cid evs1 st1) as [st2 out2]. simpl.
    destruct (run cfg cid evs2 st2) as [st3 out3]. simpl. by rewrite app_assoc.
Qed.

(** A stop leaves nothing in the buffer. *)
Lemma run_stop_buffer cfg cid evs st :
  buffer (run cfg cid (evs ++ [Stop]) st).1 = [].
Proof.
  rewrite run_app. simpl. unfold emit.
  by destruct (buffer (run cfg cid evs st).1).
Qed.

End chunker_stream.

(** ** The Chunker: the shape of what is emitted *)

Section chunker_emissions.
Import Text Chunker.

Implicit Types (cfg : config) (st : state) (buf ls : list LogLine)
  (out : list emission) (prev : option string).

Lemma chained_app cfg prev out1 out2 :
  chained cfg prev out1 →
  chained cfg (last_text prev (emitted <$> out1)) out2 →
  chained cfg prev (out1 ++ out2).
Proof.
  revert prev. induction out1 as [|e out1 IH]; intros prev; [done|].
  rewrite fmap_cons, last_text_cons. simpl. intros (? & ? & ? & ?) ?.
  split_and!; [done..|]. by apply IH.
Qed.

Lemma chained_elem cfg prev out e :
  chained cfg prev out → e ∈ out →
  ∃ prev', text (emitted e) = overlap_prefix cfg prev' +:+ concat_text (lines e)
           ∧ line_count (emitted e) = length (lines e)
           ∧ lines e ≠ [].
Proof.
  revert prev. induction out as [|e' out IH]; intros prev; [by intros _ ?%elem_of_nil|].
  simpl. intros (? & ? & ? & Hrest) [->|Hin]%elem_of_cons; [by exists prev|].
  by eapply IH.
Qed.

Lemma emit_chained cfg cid why buf st :
  chained cfg (previous st) (emit cfg cid why buf st).2.
Proof. unfold emit. by destruct buf. Qed.

Lemma step_chained cfg cid st ev :
  chained cfg (previous st) (step cfg cid st ev).2.
Proof.
  destruct ev as [l|now|]; simpl.
  - destruct (natural_trigger _ _ _); [apply emit_chained|done].
  - destruct (natural_trigger _ _ _); [apply emit_chained|done].
  - apply emit_chained.
Qed.

Lemma run_chained cfg cid evs st :
  chained cfg (previous st) (run cfg cid evs st).2.
Proof.
  revert st. induction evs as [|ev evs IH]; intros st; [done|].
  cbn [run]. pose proof (step_chained cfg cid st ev) as Hstep.
  pose proof (step_accounts cfg cid st ev) as (Hprev & _).
  destruct (step cfg cid st ev) as [st1 out1].
  pose proof (IH st1) as Hrun.
  destruct (run cfg cid evs st1) as [st2 out2]. simpl in *.
  apply chained_app; [done|]. by rewrite <- Hprev.
Qed.

Lemma length_overlap_prefix cfg prev :
  String.length (overlap_prefix cfg prev) ≤ overlap_chars cfg.
Proof.
  destruct prev as [t|]; simpl; [|lia]. rewrite length_tail_chars. lia.
Qed.

Lemma natural_trigger_None cfg buf now :
  natural_trigger cfg buf now = None → quiet cfg buf.
Proof.
  unfold natural_trigger, quiet. destruct buf as [|first rest]; [by left|].
  repeat case_decide; try done; intros _; right; lia.
Qed.

Lemma natural_trigger_Some cfg buf now why :
  natural_trigger cfg buf now = Some why →
  buf ≠ [] ∧ why ≠ ForcedFlush
  ∧ match why with
    | MaxSize => max_chunk_size cfg ≤ buffer_size buf
    | MaxLines => buffer_size buf < max_chunk_size cfg ∧ max_lines cfg ≤ length buf
    | Timeout =>
        buffer_size buf < max_chunk_size cfg ∧ length buf < max_lines cfg
        ∧ ∃ first rest, buf = first :: rest
            ∧ (timeout_seconds cfg < now - line_timestamp first)%Z
    | ForcedFlush => False
    end.
Proof.
  unfold natural_trigger. destruct buf as [|first rest]; [done|].
  repeat case_decide; try done; intros [= <-]; split_and!; try done; try lia.
  by exists first, rest.
Qed.

Lemma emit_bounded cfg cid why buf st :
  quiet cfg (removelast buf) →
  (why = MaxSize → max_chunk_size cfg ≤ buffer_size buf) →
  (why = MaxLines → max_lines cfg ≤ length buf) →
  calm cfg (emit cfg cid why buf st).1
  ∧ Forall (bounded cfg) (emit cfg cid why buf st).2.
Proof.
  intros Hquiet Hsize Hlines. unfold emit. destruct buf as [|first rest]; simpl.
  - split; [|done]. split; by left.
  - split; [split; by left|]. apply Forall_singleton. by split_and!.
Qed.

Lemma step_bounded cfg cid st ev :
  calm cfg st →
  calm cfg (step cfg cid st ev).1 ∧ Forall (bounded cfg) (step cfg cid st ev).2.
Proof.
  intros [Hbuf Hfront]. destruct ev as [l|now|]; simpl.
  - destruct (natural_trigger cfg (buffer st ++ [l]) (line_timestamp l))
      as [why|] eqn:Htrig.
    + apply natural_trigger_Some in Htrig as (_ & _ & Hwhy).
      apply emit_bounded; [by rewrite removelast_last|..]; intros ->; simpl in Hwhy;
        lia.
    + apply natural_trigger_None in Htrig. split; [|done].
      split; simpl; [done|]. by rewrite removelast_last.
  - destruct (natural_trigger cfg (buffer st) now) as [why|] eqn:Htrig.
    + apply natural_trigger_Some in Htrig as (_ & _ & Hwhy).
      apply emit_bounded; [done|..]; intros ->; simpl in Hwhy; lia.
    + done.
  - by apply emit_bounded.
Qed.

Lemma run_bounded cfg cid evs st :
  calm cfg st →
  calm cfg (run cfg cid evs st).1 ∧ Forall (bounded cfg) (run cfg cid evs st).2.
Proof.
  revert st. induction evs as [|ev evs IH]; intros st Hcalm; [done|].
  cbn [run]. destruct (step_bounded cfg cid st ev Hcalm) as [Hcalm1 Hout1].
  destruct (step cfg cid st ev) as [st1 out1].
  destruct (IH st1 Hcalm1) as [Hcalm2 Hout2].
  destruct (run cfg cid evs st1) as [st2 out2]. simpl in *.
  split; [done|]. by apply Forall_app.
Qed.

Lemma calm_init cfg : calm cfg init.
Proof. split; by left. Qed.

End chunker_emissions.

(** ** Ingestion: one Chunker per container *)

Section ingestion.
Import Text Chunker.

Implicit Types (cfg : config) (tasks : gmap string state)
  (evs : list (string * event)).

Local Abbreviation of_container A :=
  (λ e : emission, container_id (emitted e) = A).

Lemma events_of_cons_eq A ev evs :
  events_of A ((A, ev) :: evs) = ev :: events_of A evs.
Proof. unfold events_of. by rewrite filter_cons_True. Qed.

Lemma events_of_cons_ne A cid ev evs :
  cid ≠ A → events_of A ((cid, ev) :: evs) = events_of A evs.
Proof. intros. unfold events_of. by rewrite filter_cons_False. Qed.

Lemma task_state_insert_eq tasks A st : task_state (<[A := st]> tasks) A = st.
Proof. unfold task_state. by rewrite lookup_insert_eq. Qed.

Lemma task_state_insert_ne tasks A cid st :
  cid ≠ A → task_state (<[cid := st]> tasks) A = task_state tasks A.
Proof. intros. unfold task_state. by rewrite lookup_insert_ne. Qed.

(** For each container, the interleaved run does what the container's own
    Chunker does on the container's events. *)
Lemma ingest_project cfg evs tasks A :
  task_state (ingest cfg evs tasks).1 A
  = (run cfg A (events_of A evs) (task_state tasks A)).1
  ∧ filter (of_container A) (ingest cfg evs tasks).2
    = (run cfg A (events_of A evs) (task_state tasks A)).2.
Proof.
  revert tasks. induction evs as [|[cid ev] evs IH]; intros tasks; [done|].
  cbn [ingest]. unfold ingest_step. simpl.
  pose proof (step_accounts cfg cid (task_state tasks cid) ev)
    as (_ & _ & _ & Hcid & _).
  destruct (step cfg cid (task_state tasks cid) ev) as [st1 out1] eqn:Hstep.
  specialize (IH (<[cid := st1]> tasks)) as [IHst IHout].
  destruct (ingest cfg evs (<[cid := st1]> tasks)) as [tasks2 out2].
  simpl in *. rewrite filter_app, IHst, IHout.
  destruct (decide (cid = A)) as [->|Hne].
  - rewrite events_of_cons_eq. cbn [run]. rewrite Hstep.
    rewrite !task_state_insert_eq.
    destruct (run cfg A (events_of A evs) st1) as [st2 out2'].
    simpl. split; [done|]. f_equal.
    clear -Hcid. induction Hcid as [|e out1 He _ IH]; [done|].
    by rewrite filter_cons_True, IH.
  - rewrite events_of_cons_ne by done.
    rewrite !task_state_insert_ne by done. split; [done|].
    replace (filter (of_container A) out1) with (@nil emission); [done|].
    clear -Hcid Hne. induction Hcid as [|e out1 He _ IH]; [done|].
    rewrite filter_cons_False by congruence. done.
Qed.

Lemma task_state_empty A : task_state ∅ A = init.
Proof. unfold task_state. by rewrite lookup_empty. Qed.

Lemma ingest_emission cfg evs e :
  e ∈ (ingest cfg evs ∅).2 →
  e ∈ (run cfg (container_id (emitted e))
         (events_of (container_id (emitted e)) evs) init).2.
Proof.
  intros He.
  destruct (ingest_project cfg evs ∅ (container_id (emitted e))) as [_ Hout].
  rewrite task_state_empty in Hout. rewrite <- Hout.
  by apply list_elem_of_filter.
Qed.

End ingestion.

(** ** The Chunker: reconstruction of the stream and bounds of a chunk *)

Section chunker_bounds.
Import Text Chunker.

Implicit Types (cfg : config) (evs : list (string * event)) (e : emission).

(** C3: for every container of an interleaved run, the texts of the
    container's successive chunks, each without the overlap it carries from
    the chunk before, followed by what is still buffered, are the text of the
    container's line stream in order; with nothing buffered, so after a stop,
    the chunks alone are the stream.  Every chunk is the overlap with the
    chunk before followed by its own lines, and the first chunk of a container
    has sequence number 0 and is its lines alone, a prefix of the stream. *)
Theorem C3_chunks_reconstruct_stream cfg evs (A : string) :
  let res := ingest cfg evs ∅ in
  let out := filter (λ e, container_id (emitted e) = A) res.2 in
  let chunks := emitted <$> out in
  let buffered := buffer (task_state res.1 A) in
  let stream := lines_of (events_of A evs) in
  non_overlap_text cfg None chunks +:+ concat_text buffered = concat_text stream ∧
  concat (lines <$> out) ++ buffered = stream ∧
  (buffered = [] → non_overlap_text cfg None chunks = concat_text stream) ∧
  (∀ before : list event, events_of A evs = before ++ [Stop] →
     non_overlap_text cfg None chunks = concat_text stream) ∧
  chained cfg None out ∧
  chunk_seq <$> chunks = seq 0 (length chunks) ∧
  (∀ e rest, out = e :: rest →
     chunk_seq (emitted e) = 0
     ∧ text (emitted e) = concat_text (lines e)
     ∧ lines e `prefix_of` stream).
Proof.
  intros res out chunks buffered stream.
  destruct (ingest_project cfg evs ∅ A) as [Hst Hout].
  rewrite task_state_empty in Hst, Hout.
  pose proof (run_accounts cfg A (events_of A evs) init)
    as (_ & Htext & Hlines & _ & Hseq & _).
  pose proof (run_chained cfg A (events_of A evs) init) as Hchained.
  rewrite <- Hst in Htext, Hlines. rewrite <- Hout in Htext, Hlines, Hseq, Hchained.
  fold res out chunks buffered stream in Htext, Hlines, Hseq, Hchained.
  simpl in Htext, Hlines, Hseq, Hchained.
  assert (buffered = [] → non_overlap_text cfg None chunks = concat_text stream)
    as Hempty.
  { intros Hb. rewrite Hb in Htext. simpl in Htext. by rewrite append_nil_r in Htext. }
  split_and!; try done.
  - intros before Hstop. apply Hempty. unfold buffered, res. rewrite Hst, Hstop.
    apply run_stop_buffer.
  - unfold chunks. by rewrite length_fmap.
  - intros e rest Hcons. unfold chunks in Hseq.
    rewrite Hcons in Hlines, Hseq, Hchained.
    simpl in Hseq, Hchained. destruct Hchained as (Htxt & _).
    split_and!.
    + by injection Hseq.
    + done.
    + exists (concat (lines <$> rest) ++ buffered). rewrite <- Hlines. simpl.
      by rewrite app_assoc.
Qed.

(** C4, as stated, fails under the default configuration.  Above
    [max_chunk_size = 1500]: a line of 1600 characters is emitted as a chunk
    of 1600 characters, and of thirty lines of 100 characters the second chunk
    has 1500 characters of lines after 200 characters of overlap, 1700 in
    all.  Below [min_chunk_size = 200] without a forced flush: the first 25
    of thirty lines of 7 characters are emitted by the line trigger as a
    chunk of 175 characters, and a buffer of 150 characters is emitted by
    the timeout as a chunk of 150 characters. *)
Lemma C4_ceilings_exceeded :
  let long := (run default_config "container-1" [Line Scenario.long_line] init).2 in
  let even := (run default_config "container-1" (Line <$> Scenario.even_lines) init).2 in
  let short := (run default_config "container-1" (Line <$> Scenario.short_lines) init).2 in
  let late := (run default_config "container-1"
                 [Line Scenario.partial_line; Tick 100] init).2 in
  cause <$> long = [MaxSize]
  ∧ (λ e, String.length (text (emitted e))) <$> long = [1600]
  ∧ ¬ Forall (within_bounds default_config) long
  ∧ cause <$> even = [MaxSize; MaxSize]
  ∧ (λ e, String.length (text (emitted e))) <$> even = [1500; 1700]
  ∧ ¬ Forall (within_bounds default_config) even
  ∧ cause <$> short = [MaxLines]
  ∧ (λ e, line_count (emitted e)) <$> short = [25]
  ∧ (λ e, String.length (text (emitted e))) <$> short = [175]
  ∧ ¬ Forall (within_bounds default_config) short
  ∧ cause <$> late = [Timeout]
  ∧ (λ e, String.length (text (emitted e))) <$> late = [150]
  ∧ ¬ Forall (within_bounds default_config) late.
Proof.
  split_and!;
    try (intros Hall; apply (bool_decide_pack _) in Hall; by vm_compute in Hall);
    by vm_compute.
Qed.

(** The lines of an emission before its last one. *)
Lemma bounded_front cfg e :
  lines e ≠ [] → ∃ front l, lines e = front ++ [l] ∧ removelast (lines e) = front.
Proof.
  intros Hne. destruct (exists_last Hne) as (front & l & Heq).
  exists front, l. split; [done|]. by rewrite Heq, removelast_last.
Qed.

(** C4, amended: under a configuration with [min_chunk_size ≤ max_chunk_size]
    and positive ceilings, every emitted chunk is an overlap prefix of at most
    [overlap_chars] characters followed by its lines, of which it has at least
    one and at most [max_lines]; its lines before the last one have fewer than
    [max_chunk_size] characters, so that its text is shorter than
    [max_chunk_size], the overlap and its last line together; a chunk emitted
    by the size trigger has at least [max_chunk_size], so at least
    [min_chunk_size], characters, and one emitted by the line trigger has
    [max_lines] lines.  The timeout, like a forced flush, can emit a chunk
    below [min_chunk_size]. *)
Theorem C4_emitted_chunk_bounds cfg evs :
  min_chunk_size cfg ≤ max_chunk_size cfg →
  1 ≤ max_chunk_size cfg →
  1 ≤ max_lines cfg →
  Forall (λ e,
    ∃ prefix front l,
      lines e = front ++ [l]
      ∧ text (emitted e) = prefix +:+ concat_text (lines e)
      ∧ String.length prefix ≤ overlap_chars cfg
      ∧ line_count (emitted e) = length (lines e)
      ∧ 1 ≤ line_count (emitted e)
      ∧ line_count (emitted e) ≤ max_lines cfg
      ∧ buffer_size front < max_chunk_size cfg
      ∧ String.length (text (emitted e))
          < overlap_chars cfg + max_chunk_size cfg + String.length (line_text l)
      ∧ (cause e = MaxSize →
           max_chunk_size cfg ≤ buffer_size (lines e)
           ∧ min_chunk_size cfg ≤ String.length (text (emitted e)))
      ∧ (cause e = MaxLines → line_count (emitted e) = max_lines cfg))
    (ingest cfg evs ∅).2
  ∧ (2 ≤ min_chunk_size cfg → 2 ≤ max_chunk_size cfg → 2 ≤ max_lines cfg →
     (0 ≤ timeout_seconds cfg)%Z →
     ∃ (l : LogLine),
       (∃ e, (run cfg (line_container l) [Line l; Stop] init).2 = [e]
             ∧ cause e = ForcedFlush
             ∧ String.length (text (emitted e)) < min_chunk_size cfg)
       ∧ (∃ now e, (run cfg (line_container l) [Line l; Tick now] init).2 = [e]
                   ∧ cause e = Timeout
                   ∧ String.length (text (emitted e)) < min_chunk_size cfg)).
Proof.
  intros Hminmax Hmax Hlines. split.
  - apply Forall_forall. intros e He%ingest_emission.
    set (A := container_id (emitted e)) in He.
    destruct (run_bounded cfg A (events_of A evs) init (calm_init cfg)) as [_ Hb].
    rewrite Forall_forall in Hb. destruct (Hb e He) as (Hquiet & Hsize & Hcount).
    destruct (chained_elem cfg None _ e (run_chained cfg A (events_of A evs) init) He)
      as (prev & Htext & Hlc & Hne).
    destruct (bounded_front cfg e Hne) as (front & l & Hsplit & Hfront).
    rewrite Hfront in Hquiet.
    pose proof (length_overlap_prefix cfg prev) as Hoverlap.
    assert (buffer_size (lines e)
            = buffer_size front + String.length (line_text l)) as Hsum.
    { unfold buffer_size. rewrite Hsplit, concat_text_app, length_append. simpl.
      by rewrite append_nil_r. }
    assert (String.length (text (emitted e))
            = String.length (overlap_prefix cfg prev) + buffer_size (lines e))
      as Hlen by (by rewrite Htext, length_append).
    assert (length (lines e) = S (length front)) as Hn
      by (rewrite Hsplit, length_app; simpl; lia).
    assert (buffer_size front < max_chunk_size cfg ∧ length front < max_lines cfg)
      as [Hceiling Hfewer].
    { destruct Hquiet as [->|[? ?]]; [unfold buffer_size; simpl; lia|done]. }
    exists (overlap_prefix cfg prev), front, l. split_and!; try done; try lia.
    + intros Hcause. specialize (Hsize Hcause). lia.
    + intros Hcause. specialize (Hcount Hcause). lia.
  - intros Hfloor Hmax2 Hlines2 Htimeout.
    exists (mkLine "container-1" 0 0 (repeat_char Scenario.char_x 1) INFO).
    cbn [run step line_container]. unfold natural_trigger, init. simpl.
    rewrite !(decide_False (P := max_chunk_size cfg ≤ _))
      by (unfold buffer_size; simpl; lia).
    rewrite !(decide_False (P := max_lines cfg ≤ _)) by (simpl; lia).
    rewrite decide_False by lia. simpl. split.
    + eexists. split_and!; [reflexivity|done|simpl; lia].
    + exists (timeout_seconds cfg + 1)%Z.
      rewrite !(decide_False (P := max_chunk_size cfg ≤ _))
        by (unfold buffer_size; simpl; lia).
      rewrite !(decide_False (P := max_lines cfg ≤ _)) by (simpl; lia).
      rewrite decide_True by lia. simpl.
      eexists. split_and!; [reflexivity|done|simpl; lia].
Qed.

(** C4, amended, at the default configuration, for the long line followed by
    the short ones. *)
Lemma C4_emitted_chunk_bounds_witness :
  let cfg := default_config in
  let evs := (λ l, ("container-1", Line l))
               <$> (Scenario.long_line :: Scenario.short_lines) in
  (min_chunk_size cfg ≤ max_chunk_size cfg
   ∧ 1 ≤ max_chunk_size cfg ∧ 1 ≤ max_lines cfg)
  ∧ Forall (λ e,
      ∃ prefix front l,
        lines e = front ++ [l]
        ∧ text (emitted e) = prefix +:+ concat_text (lines e)
        ∧ String.length prefix ≤ overlap_chars cfg
        ∧ line_count (emitted e) = length (lines e)
        ∧ 1 ≤ line_count (emitted e)
        ∧ line_count (emitted e) ≤ max_lines cfg
        ∧ buffer_size front < max_chunk_size cfg
        ∧ String.length (text (emitted e))
            < overlap_chars cfg + max_chunk_size cfg + String.length (line_text l)
        ∧ (cause e = MaxSize →
             max_chunk_size cfg ≤ buffer_size (lines e)
             ∧ min_chunk_size cfg ≤ String.length (text (emitted e)))
        ∧ (cause e = MaxLines → line_count (emitted e) = max_lines cfg))
      (ingest cfg evs ∅).2.
Proof.
  intros cfg evs. split.
  - vm_compute. lia.
  - apply (C4_emitted_chunk_bounds cfg evs); vm_compute; lia.
Defined.

End chunker_bounds.

(** ** The scenarios of the design *)

Section scenarios.
Import Chunker VectorIndex Retriever Scenario.

(** The mock containers in the sidebar: the paused container is listed with
    the stopped one. *)
Example sidebar_mock_groups :
  Container.name <$> ContainerSidebar.runningContainers MockData.mockContainers
  = ["web-app"; "api-server"; "database"]
  ∧ Container.name <$> ContainerSidebar.stoppedContainers MockData.mockContainers
    = ["redis-cache"; "worker-queue"].
Proof. by vm_compute. Qed.

(** Two messages to the first mock container and one to the second, from the
    initial state: each view shows its own exchanges, in order. *)
Example chat_two_containers :
  let web := Container.mk "container-1" "web-app" "nginx:latest" "running"
               "2024-01-15T10:30:00Z" (Some ["80:8080"; "443:8443"]) in
  let api := Container.mk "container-2" "api-server" "node:18-alpine" "running"
               "2024-01-15T11:00:00Z" (Some ["3000:3000"]) in
  let st1 := Index.handleSendMessage (Index.mkClock 10 10 10 10) "first"
               (Index.handleContainerSelect web Index.initial) in
  let st2 := Index.handleSendMessage (Index.mkClock 20 20 20 21) "second"
               (Index.handleContainerSelect api st1) in
  let st3 := Index.handleSendMessage (Index.mkClock 30 30 31 31) "third"
               (Index.handleContainerSelect web st2) in
  ContainerLogs.containerId <$> Index.chatLogs st3 = ["container-1"; "container-2"]
  ∧ ChatMessage.id <$> Index.currentMessages st3
    = ["msg-10-user"; "msg-10-bot"; "msg-30-user"; "msg-31-bot"]
  ∧ ChatMessage.id <$> Index.currentMessages (Index.handleContainerSelect api st3)
    = ["msg-20-user"; "msg-20-bot"]
  ∧ ChatMessage.timestamp <$> Index.currentMessages st3 = [10; 1010; 30; 1031]%Z.
Proof. by vm_compute. Qed.




(** The sample query: stage 1 ranks the three chunks of the container by
    similarity (chunks 2, 0, 1), the reranker selects the third and the first
    of these, and the response cites the two in relevance order. *)
Example query_sample :
  query dot Retriever.default_config sample_adapter sample_index sample_request
  = inr {| answer := "The container logged an error.";
           sources :=
             [ mkSource ("container-1", 1) "container-1" (101, 101)%Z "INFO started" 90;
               mkSource ("container-1", 2) "container-1" (102, 102)%Z "WARN slow" 40 ]
        |}.
Proof. by vm_compute. Qed.

(** §8: a container with only 3 indexed chunks, [k = 8], [initial_k = 20]:
    stage 1 returns 3 candidates, and without reranking 3 are selected. *)
Example three_chunks_cap :
  let candidates :=
    stage1 dot Retriever.default_config Approximate sample_index [1; 2]%Z
      sample_request in
  length candidates = 3
  ∧ length (stage2 (Retriever.mkConfig false 20 8 4000) sample_adapter
              (QueryRequest.question sample_request) 8 candidates) = 3.
Proof. by vm_compute. Qed.

(** §8: ten lines, INFO and ERROR interleaved, with [max_lines = 5] and
    [overlap_chars = 0]: exactly two chunks, both of the highest severity and
    so both in the error collection under a threshold below it. *)
Example ten_lines_two_chunks :
  let cfg := Chunker.mkConfig 1500 200 5 30 0 in
  let out := (run cfg "container-1" (Line <$> interleaved_lines) init).2 in
  let idx := upsert_all 3 VectorIndex.empty ((λ e, (emitted e, [1%Z])) <$> out) in
  cause <$> out = [MaxLines; MaxLines]
  ∧ (λ e, severity (emitted e)) <$> out = [4; 4]
  ∧ dom (error idx) = dom (exact idx)
  ∧ size (exact idx) = 2.
Proof. by vm_compute. Qed.

(** §8: a partial buffer of 150 characters under [min_chunk_size = 200], ten
    seconds old when the container stops, is emitted by the forced flush. *)
Example forced_flush_below_floor :
  let out := (run Chunker.default_config "container-1"
                [Line partial_line; Tick 10; Stop] init).2 in
  cause <$> out = [ForcedFlush]
  ∧ (λ e, String.length (text (emitted e))) <$> out = [150].
Proof. by vm_compute. Qed.

End scenarios.

(* ================================================================== *)
(** * Further properties of the UI *)

(** ** The messages of a log entry *)

Section conversation.
Import Index Conversation.

Lemma append_inj_r (s1 s2 t : string) : s1 +:+ t = s2 +:+ t → s1 = s2.
Proof.
  revert s2. induction s1 as [|a s1 IH]; intros [|b s2] Heq; [done| | |].
  - apply (f_equal String.length) in Heq. rewrite !length_append in Heq.
    simpl in Heq. lia.
  - apply (f_equal String.length) in Heq. rewrite !length_append in Heq.
    simpl in Heq. lia.
  - rewrite !append_cons in Heq. injection Heq as -> Heq. f_equal. by apply IH.
Qed.

Lemma last_char_append (s t : string) : t ≠ "" → last_char (s +:+ t) = last_char t.
Proof.
  intros Ht. induction s as [|a s IH]; [done|].
  rewrite append_cons. simpl. rewrite IH.
  destruct (s +:+ t) eqn:Hst; [|done].
  destruct s; [by destruct t|done].
Qed.

(** The id of a message is the clock reading it was built from and nothing
    else: two user messages have the same id exactly when their readings are
    the same, whatever their contents, likewise two bot messages, and the id
    of a user message is never the id of a bot message. *)
Theorem message_id_is_the_clock_reading (clk1 clk2 : clock) (m1 m2 : string) :
  (ChatMessage.id (userMessage clk1 m1) = ChatMessage.id (userMessage clk2 m2)
   ↔ now_user_id clk1 = now_user_id clk2)
  ∧ (ChatMessage.id (botMessage clk1 m1) = ChatMessage.id (botMessage clk2 m2)
     ↔ now_bot_id clk1 = now_bot_id clk2)
  ∧ ChatMessage.id (userMessage clk1 m1) ≠ ChatMessage.id (botMessage clk2 m2).
Proof.
  simpl. split_and!.
  - split; [|by intros ->].
    intros Heq%(inj (String.app "msg-"))%append_inj_r. by apply (inj pretty).
  - split; [|by intros ->].
    intros Heq%(inj (String.app "msg-"))%append_inj_r. by apply (inj pretty).
  - intros Heq%(inj (String.app "msg-")).
    apply (f_equal last_char) in Heq. by rewrite !last_char_append in Heq.
Qed.

Lemma updateLogs_well_formed c clk messageContent logs :
  well_formed logs →
  well_formed (updateLogs c (userMessage clk messageContent)
                 (botMessage clk messageContent) logs).
Proof.
  intros Hwf.
  destruct (first_entry_split logs c) as [Hnone|(pre & log & post & -> & Hid & Hpre)].
  - rewrite updateLogs_new by done. apply Forall_app. split; [done|].
    apply Forall_singleton. by exists [(clk, messageContent)].
  - rewrite updateLogs_existing by done.
    apply Forall_app in Hwf as [Hwfpre Hwf]. apply Forall_cons in Hwf as [Hlog Hpost].
    apply Forall_app. split; [done|]. apply Forall_cons. split; [|done].
    destruct Hlog as (sends & Hne & Hrec). exists (sends ++ [(clk, messageContent)]).
    split; [by destruct sends|]. unfold records in *. simpl.
    rewrite Hrec, fmap_app, concat_app. simpl. by rewrite ?app_nil_r.
Qed.

(** In every state the component can reach, every log entry holds the
    messages of one or more calls of [handleSendMessage] in their order: a
    user message, the bot's reply built from the same content, and so on; no
    entry is empty, none ends with a user message. *)
Theorem reachable_entries_are_exchanges st :
  reachable st →
  ∀ log, log ∈ chatLogs st →
    ∃ sends, sends ≠ []
      ∧ ContainerLogs.messages log = concat (exchange <$> sends)
      ∧ length (ContainerLogs.messages log) = 2 * length sends
      ∧ ChatMessage.type <$> last (ContainerLogs.messages log) = Some ChatMessage.bot.
Proof.
  intros Hreach.
  assert (well_formed (chatLogs st)) as Hwf.
  { induction Hreach as [|container st _ IH|clk messageContent st _ IH]; simpl.
    - constructor.
    - done.
    - unfold handleSendMessage. destruct (selectedContainer st); [|done].
      simpl. by apply updateLogs_well_formed. }
  intros log Hlog. unfold well_formed in Hwf. rewrite Forall_forall in Hwf.
  destruct (Hwf log Hlog) as (sends & Hne & Hrec). exists sends.
  unfold records in Hrec. rewrite Hrec. split_and!; [done..| |].
  - clear. induction sends as [|x sends IH]; [done|].
    rewrite fmap_cons, concat_cons, length_app, IH. simpl. lia.
  - destruct (exists_last Hne) as (front & x & ->).
    rewrite fmap_app, concat_app. simpl.
    change [userMessage x.1 x.2; botMessage x.1 x.2]
      with ([userMessage x.1 x.2] ++ [botMessage x.1 x.2]).
    by rewrite !(assoc_L (++)), last_snoc.
Qed.

(** The state after two messages to one container and one to another. *)
Lemma reachable_entries_are_exchanges_witness :
  let st := handleSendMessage (mkClock 30 30 31 31) "third"
              (handleContainerSelect UIScenario.web
                 (handleSendMessage (mkClock 20 20 20 21) "second"
                    (handleContainerSelect UIScenario.worker
                       (handleSendMessage (mkClock 10 10 10 10) "first"
                          (handleContainerSelect UIScenario.web initial))))) in
  reachable st
  ∧ ∀ log, log ∈ chatLogs st →
      ∃ sends, sends ≠ []
        ∧ ContainerLogs.messages log = concat (exchange <$> sends)
        ∧ length (ContainerLogs.messages log) = 2 * length sends
        ∧ ChatMessage.type <$> last (ContainerLogs.messages log) = Some ChatMessage.bot.
Proof.
  intros st. split.
  - repeat constructor.
  - apply (reachable_entries_are_exchanges st). repeat constructor.
Defined.

End conversation.

(** ** What the sidebar renders *)

Section sidebar_view.
Import ContainerSidebar SidebarView.

Implicit Types (containers l : list Container.t) (c : Container.t)
  (selected : option Container.t) (b : button).

Lemma buttonClass_selected isCollapsed (selected1 selected2 : bool) :
  buttonClass isCollapsed selected1 = buttonClass isCollapsed selected2 →
  selected1 = selected2.
Proof.
  intros Heq. apply (bool_decide_pack _) in Heq.
  destruct isCollapsed, selected1, selected2; try done; by vm_compute in Heq.
Qed.

Lemma renderButton_highlighted squareCase isCollapsed selected c :
  highlighted isCollapsed (renderButton squareCase isCollapsed selected c)
  ↔ ∃ s, selected = Some s ∧ Container.id s = Container.id c.
Proof.
  unfold highlighted. simpl. split.
  - intros Heq%buttonClass_selected. unfold isSelected in Heq.
    destruct selected as [s|]; [|done]. apply bool_decide_eq_true in Heq. eauto.
  - intros (s & -> & Hid). simpl. by rewrite bool_decide_eq_true_2.
Qed.

Lemma allButtons_fmap squareCase isCollapsed selected containers :
  allButtons squareCase isCollapsed selected containers
  = renderButton squareCase isCollapsed selected
      <$> (runningContainers containers ++ stoppedContainers containers).
Proof. unfold allButtons. simpl. by rewrite app_nil_r, fmap_app. Qed.

Lemma groups_Permutation containers :
  runningContainers containers ++ stoppedContainers containers ≡ₚ containers.
Proof.
  apply (filter_app_complement (λ container, Container.status container = "running")).
Qed.

(** Nothing passes a filter that every element fails. *)
Lemma filter_none {A : Type} (keep : A → Prop) (keep_dec : ∀ x, Decision (keep x))
    (xs : list A) :
  Forall (λ x, ¬ keep x) xs → filter keep xs = [].
Proof.
  induction 1 as [|x xs Hx _ IH]; [done|]. by rewrite filter_cons_False.
Qed.

Lemma filter_unique_id l c :
  NoDup (Container.id <$> l) → c ∈ l →
  filter (λ x, Container.id c = Container.id x) l = [c].
Proof.
  induction l as [|x l IH]; [by intros _ ?%elem_of_nil|].
  rewrite fmap_cons. intros [Hx Hnd]%NoDup_cons [->|Hin]%elem_of_cons.
  - rewrite filter_cons_True by done. f_equal.
    apply filter_none, Forall_forall. intros y Hy Hid.
    apply Hx. rewrite Hid. by apply list_elem_of_fmap_2.
  - rewrite filter_cons_False; [by apply IH|].
    intros Hid. apply Hx. rewrite <- Hid. by apply list_elem_of_fmap_2.
Qed.

(** The sidebar renders one button per container, those of the running
    containers first, and a button carries the classes of the selection
    exactly when the selected container has its id; with nothing selected no
    button does.  When the containers have distinct ids, after a click on
    the button of a container that button, and no other, carries them. *)
Theorem sidebar_highlights_the_selection squareCase (isCollapsed : bool)
    selected containers :
  let rendered := allButtons squareCase isCollapsed selected containers in
  onClick <$> rendered = runningContainers containers ++ stoppedContainers containers
  ∧ onClick <$> rendered ≡ₚ containers
  ∧ key <$> rendered = Container.id <$> (onClick <$> rendered)
  ∧ (∀ b, b ∈ rendered →
       (highlighted isCollapsed b
        ↔ ∃ s, selected = Some s ∧ Container.id s = key b))
  ∧ (selected = None → filter (highlighted isCollapsed) rendered = [])
  ∧ (NoDup (Container.id <$> containers) →
     ∀ b st, b ∈ rendered →
       filter (highlighted isCollapsed)
         (allButtons squareCase isCollapsed
            (Index.selectedContainer (Index.handleContainerSelect (onClick b) st))
            containers)
       = [renderButton squareCase isCollapsed (Some (onClick b)) (onClick b)]).
Proof.
  intros rendered. unfold rendered. rewrite !allButtons_fmap.
  rewrite <- !list_fmap_compose.
  assert (onClick ∘ renderButton squareCase isCollapsed selected = id) as -> by done.
  rewrite list_fmap_id. split_and!.
  - done.
  - apply groups_Permutation.
  - done.
  - intros b (c & -> & _)%list_elem_of_fmap. apply renderButton_highlighted.
  - intros ->. apply filter_none, Forall_forall.
    intros b (c & -> & _)%list_elem_of_fmap [s [? _]]%renderButton_highlighted. done.
  - intros Hnd b st (c & -> & Hc)%list_elem_of_fmap. simpl.
    rewrite allButtons_fmap.
    set (l := runningContainers containers ++ stoppedContainers containers) in *.
    assert (NoDup (Container.id <$> l)) as Hl by (unfold l; by rewrite groups_Permutation).
    change [renderButton squareCase isCollapsed (Some c) c]
      with (renderButton squareCase isCollapsed (Some c) <$> [c]).
    rewrite <- (filter_unique_id l c Hl Hc).
    clear Hl Hc. induction l as [|x l IH]; [done|].
    rewrite fmap_cons.
    destruct (decide (Container.id c = Container.id x)) as [Hid|Hid].
    + rewrite !filter_cons_True; [by rewrite fmap_cons, IH|done|].
      apply renderButton_highlighted. eauto.
    + rewrite !filter_cons_False; [done|done|].
      intros (s & [= <-] & ?)%renderButton_highlighted. done.
Qed.

(** The marks of a status follow the groups: every button of the running
    list shows the play icon and, unless collapsed, the running badge, and no
    button of the stopped list shows either; a status that is none of the
    three cases shows the plain square and the muted badge; and the sidebar
    with the case ['stopped'] and the one with the case ['exited'] mark every
    other status alike. *)
Theorem status_marks_follow_the_groups squareCase (isCollapsed : bool)
    selected containers :
  let running := renderContainerList squareCase isCollapsed selected
                   (runningContainers containers) "Running Containers" in
  let stopped := renderContainerList squareCase isCollapsed selected
                   (stoppedContainers containers) "Stopped Containers" in
  containerLists squareCase isCollapsed selected containers = [running; stopped]
  ∧ (∀ b, b ∈ buttons running →
       iconOf (shows b) = mkIcon Play "h-3 w-3 text-status-running"
       ∧ (isCollapsed = false →
          badgeOf (shows b) = Some ("text-xs bg-status-running text-white", "running")))
  ∧ (∀ b, b ∈ buttons stopped →
       component (iconOf (shows b)) ≠ Play
       ∧ ∀ badgeClass badgeText,
           badgeOf (shows b) = Some (badgeClass, badgeText) →
           badgeClass ≠ "text-xs bg-status-running text-white"
           ∧ badgeText ≠ "running")
  ∧ (∀ status, status ≠ "running" → status ≠ squareCase → status ≠ "paused" →
       statusIcon squareCase status = mkIcon Square "h-3 w-3"
       ∧ statusColor squareCase status = "bg-muted text-muted-foreground")
  ∧ (∀ status, status ≠ "stopped" → status ≠ "exited" →
       statusIcon "stopped" status = statusIcon "exited" status
       ∧ statusColor "stopped" status = statusColor "exited" status).
Proof.
  intros running stopped. split_and!.
  - done.
  - intros b (c & -> & [Hc _]%list_elem_of_filter)%list_elem_of_fmap. simpl.
    unfold statusIcon, statusColor. rewrite !decide_True by done.
    split; [by destruct isCollapsed|]. intros ->. simpl. rewrite Hc. reflexivity.
  - intros b (c & -> & [Hc _]%list_elem_of_filter)%list_elem_of_fmap. simpl.
    unfold statusIcon, statusColor. rewrite !decide_False by done.
    split.
    + destruct isCollapsed; simpl; repeat case_decide; done.
    + intros badgeClass badgeText. destruct isCollapsed; simpl; [done|].
      intros [= <- <-]. split; [|done].
      intros Heq%(inj (String.app "text-xs ")).
      repeat case_decide; done.
  - intros status ? ? ?. unfold statusIcon, statusColor.
    by rewrite !decide_False by done.
  - intros status ? ?. unfold statusIcon, statusColor.
    by rewrite !(decide_False (P := status = "stopped")),
               !(decide_False (P := status = "exited")) by done.
Qed.

(** The sidebar fed by the event source lists what it received, in the order
    of arrival and with repetitions: a container received is appended to the
    end of its list and the other list stays as it is, and a container
    received a second time gets a second button with the same key. *)
Theorem received_containers_are_appended (received : list Container.t) :
  received_containers received = received
  ∧ (∀ c, runningContainers (received_containers (received ++ [c]))
          = runningContainers (received_containers received)
            ++ (if decide (Container.status c = "running") then [c] else [])
        ∧ stoppedContainers (received_containers (received ++ [c]))
          = stoppedContainers (received_containers received)
            ++ (if decide (Container.status c = "running") then [] else [c]))
  ∧ (∀ c squareCase isCollapsed selected,
       c ∈ received →
       ¬ NoDup (key <$> allButtons squareCase isCollapsed selected
                          (received_containers (received ++ [c])))).
Proof.
  assert (∀ l, received_containers l = l) as Hid.
  { intros l. unfold received_containers.
    induction l as [|x l IH] using rev_ind; [done|].
    rewrite foldl_app. simpl. by rewrite IH. }
  split_and!.
  - apply Hid.
  - intros c. rewrite !Hid. unfold runningContainers, stoppedContainers.
    rewrite !filter_app.
    destruct (decide (Container.status c = "running")) as [Hc|Hc].
    + rewrite (filter_cons_True _ c) by done.
      rewrite (filter_cons_False _ c) by tauto. by rewrite !filter_nil.
    + rewrite (filter_cons_False _ c) by done.
      rewrite (filter_cons_True _ c) by done. by rewrite !filter_nil.
  - intros c squareCase isCollapsed selected Hc. rewrite Hid, allButtons_fmap.
    rewrite <- list_fmap_compose.
    assert (key ∘ renderButton squareCase isCollapsed selected = Container.id)
      as -> by done.
    rewrite groups_Permutation, fmap_app. simpl.
    intros [_ [Hdisj _]]%NoDup_app.
    apply (Hdisj (Container.id c)); [by apply list_elem_of_fmap_2|].
    apply list_elem_of_singleton. done.
Qed.

End sidebar_view.


(** ** The chat area and the page *)

Section chat_area.
Import ChatArea.

Variable trim : string → string.

(** The send button and the handlers agree: for a running container the chat
    is shown and its send button is disabled exactly when [handleSend] would
    send nothing; what [handleSend] sends is the trimmed input, never the
    empty string, and it then clears the input; without a container, or for
    a blank input, it sends nothing and keeps the input; and a key press
    sends only for Enter without Shift, where it does what [handleSend]
    does. *)
Theorem send_button_agrees_with_handleSend (container : option Container.t)
    (messages : list ChatMessage.t) (inputValue : string) :
  (∀ c, container = Some c → Container.status c = "running" →
     ∃ area,
       render trim container messages inputValue
       = Chat (Container.name c) (Container.image c) area
           ("Send a message to " +:+ Container.name c +:+ "...") inputValue
           (bool_decide ((handleSend trim container inputValue).1 = None))
       ∧ (messages = [] → area = Greeting (Container.name c) (Container.id c))
       ∧ (messages ≠ [] → area = Bubbles (ChatBubble <$> messages)))
  ∧ (∀ sent, (handleSend trim container inputValue).1 = Some sent →
       sent = trim inputValue ∧ sent ≠ ""
       ∧ (handleSend trim container inputValue).2 = ""
       ∧ is_Some container)
  ∧ ((handleSend trim container inputValue).1 = None →
       (handleSend trim container inputValue).2 = inputValue
       ∧ (trim inputValue = "" ∨ container = None))
  ∧ (∀ key shiftKey,
       handleKeyPress trim key shiftKey container inputValue
       = if bool_decide (key = "Enter") && negb shiftKey
         then (true, handleSend trim container inputValue)
         else (false, (None, inputValue))).
Proof.
  split_and!.
  - intros c -> Hrunning. unfold render, handleSend.
    rewrite decide_False by (intros H; by apply H).
    eexists. split_and!.
    + f_equal. destruct (decide (trim inputValue = "")) as [Hblank|Hblank]; simpl.
      * by rewrite !bool_decide_eq_true_2.
      * by rewrite !bool_decide_eq_false_2.
    + by intros ->.
    + by destruct messages.
  - intros sent. unfold handleSend. case_decide as Hblank; [done|].
    destruct container; [|done]. simpl. intros [= <-]. by split_and!; eauto.
  - unfold handleSend. case_decide as Hblank; [by auto|].
    destruct container; [done|]. simpl. by auto.
  - intros key shiftKey. unfold handleKeyPress.
    case_decide; [rewrite bool_decide_eq_true_2 by done|
                  rewrite bool_decide_eq_false_2 by done];
      by destruct shiftKey.
Qed.

End chat_area.

Section page.
Import Page.

Variable trim : string → string.
Variable containers : list Container.t.

Implicit Types (st : state).

Lemma showsChat_running st :
  showsChat trim st →
  ∃ c, Index.selectedContainer (index st) = Some c ∧ Container.status c = "running".
Proof.
  unfold showsChat, chatView, ChatArea.render.
  destruct (Index.selectedContainer (index st)) as [c|]; [|done].
  case_decide as Hc; [done|]. intros _. exists c. split; [done|].
  by destruct (decide (Container.status c = "running")).
Qed.

Lemma send_inv clk st :
  showsChat trim st → page_inv trim containers st →
  page_inv trim containers (send trim clk st).
Proof.
  intros (c & Hsel & Hrunning)%showsChat_running [Hin Hlogs].
  unfold send, ChatArea.handleSend. rewrite Hsel.
  case_decide as Hblank; [by split|].
  unfold page_inv, Index.handleSendMessage. simpl. rewrite Hsel. simpl.
  split; [intros c0 [= <-]; by apply Hin|].
  assert (Forall (λ m, ChatMessage.type m = ChatMessage.user →
                   ∃ value, ChatMessage.content m = trim value ∧ trim value ≠ "")
            [Index.userMessage clk (trim (inputValue st));
             Index.botMessage clk (trim (inputValue st))]) as Hnew.
  { apply Forall_cons. split; [intros _; by exists (inputValue st)|].
    apply Forall_singleton. done. }
  destruct (first_entry_split (Index.chatLogs (index st)) c)
    as [Hnone|(pre & log & post & Heq & Hid & Hpre)].
  - rewrite updateLogs_new by done. apply Forall_app. split; [done|].
    apply Forall_singleton. split; [|done]. exists c. split_and!; [by apply Hin|done..].
  - rewrite Heq in Hlogs |- *. rewrite updateLogs_existing by done.
    apply Forall_app in Hlogs as [Hlpre Hlogs].
    apply Forall_cons in Hlogs as [[Hc Hmsgs] Hpost].
    apply Forall_app. split; [done|]. apply Forall_cons. split; [|done].
    split; [by rewrite <- Hid|]. simpl. by apply Forall_app.
Qed.

Lemma step_inv st st' :
  step trim containers st st' → page_inv trim containers st →
  page_inv trim containers st'.
Proof.
  intros Hstep Hinv. destruct Hstep as [c st Hc|st|value st Hshow|clk key shiftKey st Hshow
                                       |clk st Hshow Hvalue].
  - destruct Hinv as [_ Hlogs]. split; [|done]. simpl. by intros ? [= <-].
  - done.
  - done.
  - unfold keyPress. case_decide; [|done]. destruct shiftKey; [done|].
    by apply send_inv.
  - by apply send_inv.
Qed.

(** However the page is used, a message is only ever recorded for a running
    container of the sidebar, the selection is a container of the sidebar,
    and the content of every recorded user message is the trimmed text of an
    input and is not empty. *)
Theorem page_records_only_running_containers st :
  reachable trim containers st →
  (∀ c, Index.selectedContainer (index st) = Some c → c ∈ containers)
  ∧ (∀ log, log ∈ Index.chatLogs (index st) →
       ∃ c, c ∈ containers
            ∧ Container.id c = ContainerLogs.containerId log
            ∧ Container.status c = "running")
  ∧ (∀ log m, log ∈ Index.chatLogs (index st) →
       m ∈ ContainerLogs.messages log →
       ChatMessage.type m = ChatMessage.user →
       ∃ value, ChatMessage.content m = trim value ∧ trim value ≠ "").
Proof.
  intros Hreach.
  assert (page_inv trim containers st) as [Hsel Hlogs].
  { induction Hreach as [|st st' _ IH Hstep].
    - split; [done|constructor].
    - by eapply step_inv. }
  rewrite Forall_forall in Hlogs. split_and!.
  - done.
  - intros log Hlog. by apply Hlogs.
  - intros log m Hlog Hm. destruct (Hlogs log Hlog) as [_ Hmsgs].
    rewrite Forall_forall in Hmsgs. by apply Hmsgs.
Qed.

End page.

(** ** The simple chat page *)

Section simple_chat.
Import SimpleChat.

Context {number : Type}.
Variable is_zero : number → bool.
Variable trim : string → string.

Implicit Types (data answer : value number) (st : state number).

Lemma reply_truthy data answer :
  reply is_zero data = Some answer → truthy is_zero answer = true.
Proof.
  unfold reply. destruct (property "response" data) as [response|]; [|done].
  destruct (truthy is_zero response) eqn:Hresponse; [by intros [= <-]|].
  destruct (property "error" data) as [error|]; [|done].
  intros [= <-]. unfold or_else. by destruct (truthy is_zero error) eqn:Herror.
Qed.

Lemma reply_None data :
  reply is_zero data = None ↔ data = JNull ∨ data = JUndefined.
Proof.
  split.
  - destruct data; try (by left); try (by right); unfold reply; simpl;
      by destruct (truthy _ _).
  - by intros [-> | ->].
Qed.

(** [sendMessage] does nothing for a blank input, not even set [loading];
    otherwise it appends the user's message, with the input as typed, and
    sets [loading] while it waits.  When the request is rejected it then
    appends the bot's message with the fixed text, clears the input and
    resets [loading].  When the body is parsed and is [null], the updater
    throws and no bot message is appended; for every other body exactly one
    bot message is appended, the input cleared and [loading] reset.  The
    bot's text is then truthy, but a string only if the body makes it one: it
    is [response] if that is truthy, else [error] if that is, else the
    fallback, which is also the text for a body that is no object. *)
Theorem simple_chat_exchange_or_throw (o : outcome number) st :
  (trim (input st) = "" →
     sendMessage_begin trim st = None ∧ sendMessage is_zero trim o st = Done st)
  ∧ (trim (input st) ≠ "" →
       sendMessage_begin trim st
       = Some (mkState (messages st ++ [mkMessage user (JString (input st))])
                 (input st) true)
       ∧ match o with
         | Rejected =>
             sendMessage is_zero trim o st
             = Done (mkState
                       (messages st
                        ++ [mkMessage user (JString (input st));
                            mkMessage bot (JString "Error contacting backend")])
                       "" false)
         | Resolved data =>
             match data with
             | JNull | JUndefined =>
                 sendMessage is_zero trim o st = UpdaterThrows
             | _ =>
                 ∃ answer,
                   reply is_zero data = Some answer
                   ∧ truthy is_zero answer = true
                   ∧ sendMessage is_zero trim o st
                     = Done (mkState
                               (messages st
                                ++ [mkMessage user (JString (input st));
                                    mkMessage bot answer])
                               "" false)
             end
         end)
  ∧ (∀ data response error,
       property "response" data = Some response →
       property "error" data = Some error →
       reply is_zero data
       = Some (if truthy is_zero response then response
               else if truthy is_zero error then error
               else JString "No response"))
  ∧ (∀ data, reply is_zero data = None ↔ data = JNull ∨ data = JUndefined)
  ∧ (∀ data, data ≠ JNull → data ≠ JUndefined →
       (∀ members, data ≠ JObject members) →
       reply is_zero data = Some (JString "No response"))
  ∧ (∀ key (members : list (string * value number)) answer,
       own_property key (members ++ [(key, answer)]) = answer).
Proof.
  split_and!.
  - intros Hblank. unfold sendMessage, sendMessage_begin. by rewrite decide_True.
  - intros Hvalue. unfold sendMessage, sendMessage_begin.
    rewrite decide_False by done. split; [done|].
    unfold sendMessage_end. cbn [messages input loading].
    destruct o as [data|]; [|by rewrite <- app_assoc].
    destruct (reply is_zero data) as [answer|] eqn:Hreply.
    + assert (truthy is_zero answer = true) as Htruthy by by eapply reply_truthy.
      destruct data; try done; exists answer; by rewrite <- app_assoc.
    + apply reply_None in Hreply as [-> | ->]; done.
  - intros data response error Hresponse Herror. unfold reply, or_else.
    rewrite Hresponse, Herror. by destruct (truthy is_zero response).
  - apply reply_None.
  - intros data Hnull Hundefined Hobject. destruct data; try done.
    by destruct (Hobject members).
  - intros key members answer. unfold own_property. rewrite foldl_snoc. simpl.
    by rewrite decide_True.
Qed.

End simple_chat.

(** ** Scenarios of the page *)

Section ui_scenarios.
Import UIScenario.

(** The page after the first mock container is selected, an input with
    blanks around it is typed and Enter is pressed. *)
Lemma page_records_only_running_containers_witness :
  let st1 := Page.mkState (Index.handleContainerSelect web Index.initial) "" false in
  let st2 := Page.mkState (Page.index st1) "  logs? " false in
  let st3 := Page.keyPress trim_ascii (Index.mkClock 5 6 7 8) "Enter" false st2 in
  Page.reachable trim_ascii MockData.mockContainers st3
  ∧ ∀ log, log ∈ Index.chatLogs (Page.index st3) →
      ∃ c, c ∈ MockData.mockContainers
           ∧ Container.id c = ContainerLogs.containerId log
           ∧ Container.status c = "running".
Proof.
  intros st1 st2 st3.
  assert (Page.reachable trim_ascii MockData.mockContainers st3) as Hreach.
  { apply (Page.reachable_step _ _ st2); [|by apply Page.step_keyPress].
    apply (Page.reachable_step _ _ st1); [|by apply (Page.step_change _ _ "  logs? " st1)].
    apply (Page.reachable_step _ _ Page.initial); [constructor|].
    apply (Page.step_select _ _ web Page.initial). set_solver. }
  split; [exact Hreach|].
  apply (page_records_only_running_containers trim_ascii MockData.mockContainers st3
           Hreach).
Defined.

(** In that state the log has the one exchange, with the trimmed text, and
    the input is empty again; Shift+Enter would have sent nothing. *)
Example page_after_enter :
  let st2 := Page.mkState (Index.handleContainerSelect web Index.initial)
               "  logs? " false in
  let st3 := Page.keyPress trim_ascii (Index.mkClock 5 6 7 8) "Enter" false st2 in
  (ChatMessage.content <$> Index.currentMessages (Page.index st3)) !! 0 = Some "logs?"
  ∧ ChatMessage.id <$> Index.currentMessages (Page.index st3)
    = ["msg-5-user"; "msg-7-bot"]
  ∧ Page.inputValue st3 = ""
  ∧ Page.keyPress trim_ascii (Index.mkClock 5 6 7 8) "Enter" true st2 = st2.
Proof. by vm_compute. Qed.

(** For the stopped mock container the chat area shows the stopped state,
    for no container the empty state. *)
Example chat_area_of_a_stopped_container :
  ChatArea.render trim_ascii (Some worker) [] "hello"
  = ChatArea.StoppedContainerState "worker-queue"
  ∧ ChatArea.render trim_ascii None [] "hello" = ChatArea.EmptyState.
Proof. by vm_compute. Qed.

(** The simple chat, with integers for numbers: an empty response falls
    through to the error; a response that is a number is the text as it is;
    the body [null] makes the updater throw. *)
Example simple_chat_error_reply :
  let st := SimpleChat.mkState [] " ps " false in
  let send := SimpleChat.sendMessage (Z.eqb 0) trim_ascii in
  send (SimpleChat.Resolved
          (SimpleChat.JObject
             [ ("response", SimpleChat.JString "");
               ("error", SimpleChat.JString "no such container") ])) st
  = SimpleChat.Done
      (SimpleChat.mkState
         [ SimpleChat.mkMessage SimpleChat.user (SimpleChat.JString " ps ");
           SimpleChat.mkMessage SimpleChat.bot
             (SimpleChat.JString "no such container") ] "" false)
  ∧ send (SimpleChat.Resolved
            (SimpleChat.JObject [ ("response", SimpleChat.JNumber 7%Z) ])) st
    = SimpleChat.Done
        (SimpleChat.mkState
           [ SimpleChat.mkMessage SimpleChat.user (SimpleChat.JString " ps ");
             SimpleChat.mkMessage SimpleChat.bot (SimpleChat.JNumber 7%Z) ] "" false)
  ∧ send (SimpleChat.Resolved SimpleChat.JNull) st = SimpleChat.UpdaterThrows
  ∧ send SimpleChat.Rejected st
    = SimpleChat.Done
        (SimpleChat.mkState
           [ SimpleChat.mkMessage SimpleChat.user (SimpleChat.JString " ps ");
             SimpleChat.mkMessage SimpleChat.bot
               (SimpleChat.JString "Error contacting backend") ] "" false).
Proof. by vm_compute. Qed.

End ui_scenarios.
